(** * Jeqyll: the Liquid template kernel

    A shallow embedding of [src/liquid/context.hpp], [src/liquid/blockbody.cpp]
    and [src/liquid/tags/if.hpp]: the variant runtime value ([Context]) with its
    lookup evaluation, the [BlockBody] parse and render loops, and the
    [Condition] chain of the conditional tag.

    C++ exceptions are results of type [result]; a [Context&] parameter that a
    callee may mutate is threaded through as an explicit state. *)

From Stdlib Require Import ZArith String List Bool Lia DecimalString.
From Stdlib Require Import Floats.SpecFloat.
From stdpp Require Import base option list gmap strings fin_maps.

#[local] Set Warnings "-register-all".

(** ** Primitive payloads *)

(** [int] payloads are kept as integers; no arithmetic is performed on them
    by the embedded code. *)
Definition int := Z.
Bind Scope Z_scope with int.

(** A [double] is an IEEE 754 binary64 value. *)
Definition double := spec_float.
Definition double_prec : Z := 53.
Definition double_emax : Z := 1024.

(** Conversion [int -> double] (exact for 32-bit integers). *)
Definition double_of_int (i : int) : double :=
  binary_normalize double_prec double_emax i 0 false.

Definition double_eqb (x y : double) : bool := SFeqb x y.
Definition double_ltb (x y : double) : bool := SFltb x y.
Definition double_leb (x y : double) : bool := SFleb x y.

(** ** [Liquid::Context] *)

(** [Context::Type]. *)
Module Type_.
Inductive t :=
| Hash
| Array
| String
| NumberInt
| NumberFloat
| BooleanTrue
| BooleanFalse
| Nil.

#[global] Instance eq_dec : EqDecision t.
Proof. solve_decision. Defined.
End Type_.

(** The anonymous union [number_]. A constructor that does not write the
    union leaves it [number_unset]. *)
Inductive number_union :=
| number_unset
| number_i (i : int)
| number_f (f : double).

(** The class keeps the type tag next to one storage member per payload kind;
    only the member selected by [type_] is meaningful. *)
Inductive Context := mkContext {
  type_ : Type_.t;
  hash_ : gmap string Context;
  array_ : list Context;
  string_ : string;
  number_ : number_union
}.

(** Reading a union member. Reading a member that was not the last one
    written has no defined value in C++; the model reads [0]. *)
Definition number_union_i (n : number_union) : int :=
  match n with number_i i => i | _ => 0%Z end.

Definition number_union_f (n : number_union) : double :=
  match n with number_f f => f | _ => S754_zero false end.

(** *** Constructors *)

(** [Context()], [Context(std::nullptr_t)]. *)
Definition Context_new : Context :=
  mkContext Type_.Nil ∅ [] EmptyString number_unset.

(** [Context(Type type)]. *)
Definition Context_of_Type (type : Type_.t) : Context :=
  mkContext type ∅ [] EmptyString number_unset.

(** [Context(const Hash& hash)]. *)
Definition Context_of_Hash (hash : gmap string Context) : Context :=
  mkContext Type_.Hash hash [] EmptyString number_unset.

(** [Context(const Array& array)]. *)
Definition Context_of_Array (array : list Context) : Context :=
  mkContext Type_.Array ∅ array EmptyString number_unset.

(** [Context(const QString& string)], a C string literal. *)
Definition Context_of_QString (s : string) : Context :=
  mkContext Type_.String ∅ [] s number_unset.

(** [Context(int value)]. *)
Definition Context_of_int (value : int) : Context :=
  mkContext Type_.NumberInt ∅ [] EmptyString (number_i value).

(** [Context(double value)]. *)
Definition Context_of_double (value : double) : Context :=
  mkContext Type_.NumberFloat ∅ [] EmptyString (number_f value).

(** [Context(bool value)]. *)
Definition Context_of_bool (value : bool) : Context :=
  mkContext (if value then Type_.BooleanTrue else Type_.BooleanFalse)
            ∅ [] EmptyString number_unset.

(** [Context(const Context& ctx)]: only the member selected by the tag is
    copied, the others are default-initialised. *)
Definition Context_copy (ctx : Context) : Context :=
  match type_ ctx with
  | Type_.Hash => mkContext Type_.Hash (hash_ ctx) [] EmptyString number_unset
  | Type_.Array => mkContext Type_.Array ∅ (array_ ctx) EmptyString number_unset
  | Type_.String => mkContext Type_.String ∅ [] (string_ ctx) number_unset
  | Type_.NumberInt =>
      mkContext Type_.NumberInt ∅ [] EmptyString
                (number_i (number_union_i (number_ ctx)))
  | Type_.NumberFloat =>
      mkContext Type_.NumberFloat ∅ [] EmptyString
                (number_f (number_union_f (number_ ctx)))
  | Type_.BooleanTrue => mkContext Type_.BooleanTrue ∅ [] EmptyString number_unset
  | Type_.BooleanFalse => mkContext Type_.BooleanFalse ∅ [] EmptyString number_unset
  | Type_.Nil => mkContext Type_.Nil ∅ [] EmptyString number_unset
  end.

(** Modelled from the spec: the definition of [kNilContext] (declared
    [const extern] in context.hpp) is not part of the sources; the spec calls
    it the process-wide Nil singleton constant. *)
Definition kNilContext : Context := Context_new.

(** *** Observers *)

Definition Context_type (c : Context) : Type_.t := type_ c.

Definition Context_isHash (c : Context) : bool :=
  bool_decide (type_ c = Type_.Hash).

Definition Context_isArray (c : Context) : bool :=
  bool_decide (type_ c = Type_.Array).

Definition Context_isString (c : Context) : bool :=
  bool_decide (type_ c = Type_.String).

Definition Context_isNumber (c : Context) : bool :=
  bool_decide (type_ c = Type_.NumberInt)
  || bool_decide (type_ c = Type_.NumberFloat).

Definition Context_isBoolean (c : Context) : bool :=
  bool_decide (type_ c = Type_.BooleanTrue)
  || bool_decide (type_ c = Type_.BooleanFalse).

Definition Context_isNil (c : Context) : bool :=
  bool_decide (type_ c = Type_.Nil).

(** [Context::toFloat]. *)
Definition Context_toFloat (c : Context) : double :=
  match type_ c with
  | Type_.NumberInt => double_of_int (number_union_i (number_ c))
  | Type_.NumberFloat => number_union_f (number_ c)
  | _ => S754_zero false
  end.

(** [Context::isTruthy]. *)
Definition Context_isTruthy (c : Context) : bool :=
  match type_ c with
  | Type_.Nil
  | Type_.BooleanFalse => false
  | _ => true
  end.

(** [Context::size]; the Qt containers report their length as an [int]. *)
Definition Context_size (c : Context) : int :=
  match type_ c with
  | Type_.Hash => Z.of_nat (size (hash_ c))
  | Type_.Array => Z.of_nat (length (array_ c))
  | Type_.String => Z.of_nat (String.length (string_ c))
  | _ => 0%Z
  end.

(** [Context::push_back] with an argument that is another object than [c];
    [QList::push_back] stores a copy of its argument. The Array case is the
    call on a list whose data no other handle shares; see
    [Context_push_back_shared] for the other case. *)
Definition Context_push_back (c ctx : Context) : Context :=
  if Context_isArray c then
    mkContext (type_ c) (hash_ c) (array_ c ++ [Context_copy ctx])
              (string_ c) (number_ c)
  else c.

(** *** [operator==] *)

(** [Context::operator==]. [QHash<K,T>::operator==] holds when both tables
    have the same number of entries and every entry of the left one is
    matched by an equal value under the same key on the right; for
    [QList<T>] the elements are compared in order. This is the comparison
    Qt carries out on two containers that do not share their data. On two
    handles to the same data Qt answers true before looking at any element;
    the two answers differ only when that data holds a NaN, the one value
    that is not equal to itself. *)
Fixpoint Context_eqb (c other : Context) {struct c} : bool :=
  if negb (bool_decide (type_ c = type_ other)) then false
  else
    match type_ c with
    | Type_.Hash =>
        bool_decide (size (hash_ c) = size (hash_ other))
        && map_fold
             (λ key v acc,
               acc && match hash_ other !! key with
                      | Some w => Context_eqb v w
                      | None => false
                      end)
             true (hash_ c)
    | Type_.Array =>
        (fix array_eq (l1 l2 : list Context) : bool :=
           match l1, l2 with
           | [], [] => true
           | x :: l1, y :: l2 => Context_eqb x y && array_eq l1 l2
           | _, _ => false
           end) (array_ c) (array_ other)
    | Type_.String => String.eqb (string_ c) (string_ other)
    | Type_.NumberInt =>
        Z.eqb (number_union_i (number_ c)) (number_union_i (number_ other))
    | Type_.NumberFloat =>
        double_eqb (number_union_f (number_ c)) (number_union_f (number_ other))
    | Type_.BooleanTrue
    | Type_.BooleanFalse
    | Type_.Nil => true
    end.

(** ** [Liquid::Expression] *)

(** Modelled from the spec: expression.hpp is not part of the sources. The
    spec gives the variants: a Literal wrapping a Context value, a LookupKey
    holding a static name, and a Lookup holding the ordered sequence of child
    Expressions of a path. [Context::evaluate] reads them through
    [isLookupKey]/[lookupKey] and [isLookup]/[lookups]. *)
Inductive Expression :=
| Literal (value : Context)
| LookupKey (lookupKey : string)
| Lookup (lookups : list Expression).

Definition Expression_isLookupKey (e : Expression) : bool :=
  match e with LookupKey _ => true | _ => false end.

Definition Expression_isLookup (e : Expression) : bool :=
  match e with Lookup _ => true | _ => false end.

(** ** Exceptions *)

Inductive exception :=
| EvaluationError (expression : Expression)
    (* the QString "Can't evaluate expression %1", %1 being the integer
       value of the expression's type tag *)
| UnknownTagError (what : string)
    (* the std::string thrown by the default unknown-tag handler *)
| NullChild
    (* a Condition whose logical operator is set while its child is null *)
| CollaboratorError (what : string).
    (* any fault raised by code outside these sources *)

Inductive result (A : Type) :=
| Ok (a : A)
| Throw (e : exception).
Arguments Ok {A} a.
Arguments Throw {A} e.

Definition bind {A B} (r : result A) (k : A → result B) : result B :=
  match r with
  | Ok a => k a
  | Throw e => Throw e
  end.

#[global] Instance result_bind : MBind result := λ A B k r, bind r k.
#[global] Instance result_ret : MRet result := @Ok.

Definition is_Ok {A} (r : result A) : Prop := ∃ a, r = Ok a.
Definition is_Throw {A} (r : result A) : Prop := ∃ e, r = Throw e.

(** ** [Context::evaluate] *)

(** The reference returned by the C++ function is the value it designates.
    The [for] loop over [expression.lookups()] is the local [walk]. *)
Fixpoint Context_evaluate (c : Context) (expression : Expression)
  : result Context :=
  match expression with
  | LookupKey key =>
      if Context_isHash c then
        match hash_ c !! key with
        | Some v => Ok v
        | None => Ok kNilContext
        end
      else Ok kNilContext
  | Lookup lookups =>
      (fix walk (ctx : Context) (ls : list Expression) : result Context :=
         match ls with
         | [] => Ok ctx
         | lookup :: ls' =>
             match Context_evaluate ctx lookup with
             | Ok r => if Context_isNil r then Ok r else walk r ls'
             | Throw e => Throw e
             end
         end) c lookups
  | Literal _ => Throw (EvaluationError expression)
  end.

(** The loop of the Lookup branch, as a function of its own. *)
Fixpoint Context_walk (ctx : Context) (ls : list Expression) : result Context :=
  match ls with
  | [] => Ok ctx
  | lookup :: ls' =>
      match Context_evaluate ctx lookup with
      | Ok r => if Context_isNil r then Ok r else Context_walk r ls'
      | Throw e => Throw e
      end
  end.

(** ** [Context::toString] *)

(** [QString::number(int)]: the decimal digits, with a leading minus sign for
    a negative value. *)
Definition QString_number_int (i : int) : string :=
  NilZero.string_of_int (Z.to_int i).

(** [QString::number(double)] belongs to Qt; its formatting is left open. *)
Class QtNumberFormat := QString_number_double : double → string.

Definition Context_toString `{QtNumberFormat} (c : Context) : string :=
  match type_ c with
  | Type_.BooleanTrue => "true"
  | Type_.BooleanFalse => "false"
  | Type_.NumberInt => QString_number_int (number_union_i (number_ c))
  | Type_.NumberFloat => QString_number_double (number_union_f (number_ c))
  | _ => string_ c
  end.

(** ** [Liquid::BlockBody] *)

(** Modelled from the spec: tokenizer.hpp is not part of the sources. A
    Component is one lexical unit of the outer scan, [{kind, text}] for Text
    and [{kind, innerText}] for Object and Tag. *)
Module Component_Type.
Inductive t :=
| Text
| Object
| Tag.
End Component_Type.

Record Component := mkComponent {
  Component_type : Component_Type.t;
  text : string;
  innerText : string
}.

(** Modelled from the spec: the Tokenizer is a single-pass cursor over the
    ordered Components of the source; its state is the sequence still to be
    handed out. [tokenizer.next()] hands out the head of that sequence and
    keeps the tail, and returns the null pointer on the empty sequence. *)
Definition Tokenizer := list Component.

(** The tag classes that [BlockBody::parse] instantiates. *)
Inductive TagKind :=
| AssignTag
| CommentTag
| CaptureTag
| IncrementTag
| DecrementTag.

(** The classes used by blockbody.cpp whose code lies outside these sources:
    the markup [Parser], [Variable] and the five tag classes. A constructor
    or method that may throw returns a [result]; [Tag_parse] reports how many
    further Components the tag's own [parse] took from the tokenizer; a
    [render] may update the [Context&] it is given. *)
Class Collaborators := {
  Parser : Type;
  Parser_new : string → result Parser;
  Parser_consume_Id : Parser → result (string * Parser);
  Variable_ : Type;
  Variable_new : string → result Variable_;
  Variable_render : Variable_ → Context → result (string * Context);
  Tag : Type;
  Tag_new : TagKind → string → Parser → result Tag;
  Tag_parse : TagKind → Tag → Tokenizer → result (Tag * nat);
  Tag_render : TagKind → Tag → Context → result (string * Context)
}.

(** The elements of [nodes_]. *)
Inductive Node `{Collaborators} :=
| TextNode (text : string)
| ObjectNode (variable : Variable_)
| TagNode (kind : TagKind) (tag : Tag).

(** A [QStringRef] tag name; [None] is the null reference [QStringRef()]. *)
Definition QStringRef := option string.

Definition QStringRef_isNull (r : QStringRef) : bool :=
  match r with None => true | Some _ => false end.

(** [UnknownTagHandler]: called with the tag name and the tokenizer, which
    it may advance. *)
Definition UnknownTagHandler := QStringRef → Tokenizer → result Tokenizer.

(** [QString("Unknown tag '%1'").arg(name)]. *)
Definition unknown_tag_message (name : string) : string :=
  "Unknown tag '" +:+ name +:+ "'".

(** [BlockBody::defaultUnknownTagHandler]. *)
Definition BlockBody_defaultUnknownTagHandler : UnknownTagHandler :=
  λ tagName tokenizer,
    if negb (QStringRef_isNull tagName) then
      Throw (UnknownTagError (unknown_tag_message (default EmptyString tagName)))
    else Ok tokenizer.

Section BlockBody.
Context `{Collaborators}.

(** The [while] loop of [BlockBody::parse]. [tokenizer] is the cursor and
    [nodes_] the member being filled. When a comment or capture tag has read
    [n] Components through its own [parse], the cursor moves past them before
    the loop pulls its next Component: that is [skip]. The result is the final
    [nodes_] together with the tokenizer as the handler left it. *)
Fixpoint BlockBody_parse_loop (tokenizer : Tokenizer) (skip : nat)
    (unknownTagHandler : UnknownTagHandler) (nodes_ : list Node)
  : result (list Node * Tokenizer) :=
  match tokenizer with
  | [] =>
      tokenizer' ← unknownTagHandler None [];
      Ok (nodes_, tokenizer')
  | comp :: rest =>
      match skip with
      | S skip' => BlockBody_parse_loop rest skip' unknownTagHandler nodes_
      | O =>
          match Component_type comp with
          | Component_Type.Text =>
              BlockBody_parse_loop rest 0 unknownTagHandler
                (nodes_ ++ [TextNode (text comp)])
          | Component_Type.Object =>
              variable ← Variable_new (innerText comp);
              BlockBody_parse_loop rest 0 unknownTagHandler
                (nodes_ ++ [ObjectNode variable])
          | Component_Type.Tag =>
              parser ← Parser_new (innerText comp);
              '(tagName, parser) ← Parser_consume_Id parser;
              if String.eqb tagName "assign" then
                tag ← Tag_new AssignTag tagName parser;
                BlockBody_parse_loop rest 0 unknownTagHandler
                  (nodes_ ++ [TagNode AssignTag tag])
              else if String.eqb tagName "comment" then
                tag ← Tag_new CommentTag tagName parser;
                '(tag, n) ← Tag_parse CommentTag tag rest;
                BlockBody_parse_loop rest n unknownTagHandler
                  (nodes_ ++ [TagNode CommentTag tag])
              else if String.eqb tagName "capture" then
                tag ← Tag_new CaptureTag tagName parser;
                '(tag, n) ← Tag_parse CaptureTag tag rest;
                BlockBody_parse_loop rest n unknownTagHandler
                  (nodes_ ++ [TagNode CaptureTag tag])
              else if String.eqb tagName "increment" then
                tag ← Tag_new IncrementTag tagName parser;
                BlockBody_parse_loop rest 0 unknownTagHandler
                  (nodes_ ++ [TagNode IncrementTag tag])
              else if String.eqb tagName "decrement" then
                tag ← Tag_new DecrementTag tagName parser;
                BlockBody_parse_loop rest 0 unknownTagHandler
                  (nodes_ ++ [TagNode DecrementTag tag])
              else
                tokenizer' ← unknownTagHandler (Some tagName) rest;
                Ok (nodes_, tokenizer')
          end
      end
  end.

(** [BlockBody::parse]: [nodes_.clear()], then the loop. *)
Definition BlockBody_parse (tokenizer : Tokenizer)
    (unknownTagHandler : UnknownTagHandler)
  : result (list Node * Tokenizer) :=
  BlockBody_parse_loop tokenizer 0 unknownTagHandler [].

(** [node->render(context)]. Modelled from the spec: node.hpp is not part of
    the sources; a TextNode holds literal text, which is emitted verbatim.
    The object and tag nodes render through their classes. *)
Definition Node_render (node : Node) (context : Context)
  : result (string * Context) :=
  match node with
  | TextNode text => Ok (text, context)
  | ObjectNode variable => Variable_render variable context
  | TagNode kind tag => Tag_render kind tag context
  end.

(** The [for] loop of [BlockBody::render]; [str] is the local accumulator. *)
Fixpoint BlockBody_render_loop (nodes : list Node) (context : Context)
    (str : string) : result (string * Context) :=
  match nodes with
  | [] => Ok (str, context)
  | node :: rest =>
      '(s, context') ← Node_render node context;
      BlockBody_render_loop rest context' (str +:+ s)
  end.

(** [BlockBody::render]: the text, and the context as the nodes left it. *)
Definition BlockBody_render (nodes_ : list Node) (context : Context)
  : result (string * Context) :=
  BlockBody_render_loop nodes_ context EmptyString.

End BlockBody.

(** ** [Liquid::Condition] (tags/if.hpp) *)

(** [Condition::Operator]. *)
Module Operator.
Inductive t :=
| None
| Equal
| NotEqual
| LessThan
| GreaterThan
| GreaterOrEqualThan
| LessOrEqualThan
| Contains.
End Operator.

(** [Condition::LogicalOperator]. *)
Module LogicalOperator.
Inductive t :=
| None
| And
| Or.
End LogicalOperator.

(** The data members of [Condition]; [child_] is a shared pointer, [None]
    when null. *)
Inductive Condition := mkCondition {
  a_ : Expression;
  op_ : Operator.t;
  b_ : Expression;
  logicalOp_ : LogicalOperator.t;
  child_ : option Condition
}.




(** [Condition(const Expression& a, Operator op, const Expression& b)]. *)
Definition Condition_of_comparison (a : Expression) (op : Operator.t)
    (b : Expression) : Condition :=
  mkCondition a op b LogicalOperator.None None.

(** [Condition::setLogicalCondition]. *)
Definition Condition_setLogicalCondition (c : Condition)
    (op : LogicalOperator.t) (cond : option Condition) : Condition :=
  mkCondition (a_ c) (op_ c) (b_ c) op cond.

(** Modelled from the spec: the evaluation of an Expression against a Context
    is not part of the sources. A Literal wraps a Context value and yields
    it; a path is read through [Context::evaluate]. *)
Definition Expression_evaluate (e : Expression) (context : Context)
  : result Context :=
  match e with
  | Literal value => Ok value
  | _ => Context_evaluate context e
  end.

(** [QString::contains]: [needle] occurs in [s] at some position. *)
Fixpoint QString_contains (s needle : string) : bool :=
  String.prefix needle s
  || match s with
     | EmptyString => false
     | String.String _ s' => QString_contains s' needle
     end.

Section Condition.
Context `{QtNumberFormat}.

(** Modelled from the spec: the body of [Condition::evaluate] is not part of
    the sources (if.hpp only declares it). This is the value of the node's
    own comparison, section 4.4 of the spec: with no operator the truthiness
    of the left side; Equal and NotEqual by Context equality; the four orderings
    on both sides' floating value; Contains as a substring test of the right
    side's string form when the left side is a String, and as membership by
    element equality when it is an Array. *)
Definition Condition_comparison (c : Condition) (context : Context)
  : result bool :=
  match op_ c with
  | Operator.None =>
      v1 ← Expression_evaluate (a_ c) context;
      Ok (Context_isTruthy v1)
  | Operator.Equal =>
      v1 ← Expression_evaluate (a_ c) context;
      v2 ← Expression_evaluate (b_ c) context;
      Ok (Context_eqb v1 v2)
  | Operator.NotEqual =>
      v1 ← Expression_evaluate (a_ c) context;
      v2 ← Expression_evaluate (b_ c) context;
      Ok (negb (Context_eqb v1 v2))
  | Operator.LessThan =>
      v1 ← Expression_evaluate (a_ c) context;
      v2 ← Expression_evaluate (b_ c) context;
      Ok (double_ltb (Context_toFloat v1) (Context_toFloat v2))
  | Operator.GreaterThan =>
      v1 ← Expression_evaluate (a_ c) context;
      v2 ← Expression_evaluate (b_ c) context;
      Ok (double_ltb (Context_toFloat v2) (Context_toFloat v1))
  | Operator.GreaterOrEqualThan =>
      v1 ← Expression_evaluate (a_ c) context;
      v2 ← Expression_evaluate (b_ c) context;
      Ok (double_leb (Context_toFloat v2) (Context_toFloat v1))
  | Operator.LessOrEqualThan =>
      v1 ← Expression_evaluate (a_ c) context;
      v2 ← Expression_evaluate (b_ c) context;
      Ok (double_leb (Context_toFloat v1) (Context_toFloat v2))
  | Operator.Contains =>
      v1 ← Expression_evaluate (a_ c) context;
      v2 ← Expression_evaluate (b_ c) context;
      if Context_isString v1 then
        Ok (QString_contains (string_ v1) (Context_toString v2))
      else if Context_isArray v1 then
        Ok (existsb (λ element, Context_eqb element v2) (array_ v1))
      else Ok false
  end.



End Condition.




Section IfTag.
Context `{Collaborators} `{QtNumberFormat}.



End IfTag.

(** ** Vocabulary of the statements *)

(** [walks c pre c']: the loop of [Context::evaluate] runs through the steps
    [pre] starting in [c] without fault and without meeting Nil, and stands
    in [c'] afterwards. *)
Inductive walks : Context → list Expression → Context → Prop :=
| walks_nil c : walks c [] c
| walks_cons c step r pre c' :
    Context_evaluate c step = Ok r →
    Context_isNil r = false →
    walks r pre c' →
    walks c (step :: pre) c'.

(** [misses c e]: evaluating [e] in [c] meets a key step that finds no data:
    a key step on a Context that is not a Hash (an Array included), a key
    absent from a Hash, or a path that reaches such a step, whatever follows
    it. *)
Inductive misses : Context → Expression → Prop :=
| miss_not_Hash c key :
    Context_isHash c = false → misses c (LookupKey key)
| miss_absent_key c key :
    Context_isHash c = true → hash_ c !! key = None →
    misses c (LookupKey key)
| miss_in_path c pre step post c' :
    walks c pre c' → misses c' step →
    misses c (Lookup (pre ++ step :: post)).

(** [reaches_non_lookup c e]: evaluating [e] in [c] arrives at an expression
    that is neither a Lookup nor a LookupKey: [e] itself, or a step of a path
    that the walk reaches. *)
Inductive reaches_non_lookup : Context → Expression → Prop :=
| reaches_here c e :
    Expression_isLookupKey e = false → Expression_isLookup e = false →
    reaches_non_lookup c e
| reaches_in_path c pre step post c' :
    walks c pre c' → reaches_non_lookup c' step →
    reaches_non_lookup c (Lookup (pre ++ step :: post)).

(** Every expression inside [e], [e] included, is a Lookup or a LookupKey. *)
Fixpoint lookup_shaped (e : Expression) : bool :=
  match e with
  | Literal _ => false
  | LookupKey _ => true
  | Lookup lookups => forallb lookup_shaped lookups
  end.

(** The name each tag class is dispatched under. *)
Definition TagKind_name (kind : TagKind) : string :=
  match kind with
  | AssignTag => "assign"
  | CommentTag => "comment"
  | CaptureTag => "capture"
  | IncrementTag => "increment"
  | DecrementTag => "decrement"
  end.

(** The tag classes on which [BlockBody::parse] calls [parse(tokenizer)]. *)
Definition TagKind_reads_tokenizer (kind : TagKind) : bool :=
  match kind with
  | CommentTag | CaptureTag => true
  | _ => false
  end.

(** The tag names the spec lists as recognized at the top level. *)
Definition spec_tag_names : list string :=
  ["assign"; "comment"; "capture"; "increment"; "decrement"; "if"].

(** The tag names the dispatch compares with. *)
Definition parse_tag_names : list string :=
  ["assign"; "comment"; "capture"; "increment"; "decrement"].

Section RenderRuns.
Context `{Collaborators}.

(** The texts of the nodes, each rendered in the context its predecessors
    left, in sequence order. *)
Fixpoint node_texts (nodes : list Node) (context : Context)
  : result (list string * Context) :=
  match nodes with
  | [] => Ok ([], context)
  | node :: rest =>
      '(s, context') ← Node_render node context;
      '(texts, context'') ← node_texts rest context';
      Ok (s :: texts, context'')
  end.

End RenderRuns.

(** Concatenation of texts with nothing in between. *)
Definition QString_concat (texts : list string) : string :=
  fold_right String.append EmptyString texts.

(** A Text component. *)
Definition Text_component (s : string) : Component :=
  mkComponent Component_Type.Text s EmptyString.

(** A Tag component with the given inner markup. *)
Definition Tag_component (markup : string) : Component :=
  mkComponent Component_Type.Tag EmptyString markup.

(** ** A concrete instance to run the definitions on examples *)

(** Passed explicitly wherever it is used. The markup is its own leading Id;
    a variable renders the [string_] of the value found under its name; tags
    read no further Component and render nothing. *)
Definition plain_collaborators : Collaborators := {|
  Parser := string;
  Parser_new := λ markup, Ok markup;
  Parser_consume_Id := λ parser, Ok (parser, EmptyString);
  Variable_ := string;
  Variable_new := λ markup, Ok markup;
  Variable_render := λ variable context,
    r ← Context_evaluate context (Lookup [LookupKey variable]);
    Ok (string_ r, context);
  Tag := string;
  Tag_new := λ _ _ parser, Ok parser;
  Tag_parse := λ _ tag _, Ok (tag, 0);
  Tag_render := λ _ _ context, Ok (EmptyString, context)
|}.

Definition plain_TextNode (s : string) : @Node plain_collaborators :=
  @TextNode plain_collaborators s.
Definition plain_ObjectNode (name : string) : @Node plain_collaborators :=
  @ObjectNode plain_collaborators name.

(** Prints the non-finite values as Qt does; the examples print no other
    double. *)
Definition plain_number_format : QtNumberFormat :=
  λ f, match f with
       | S754_nan => "nan"
       | S754_infinity false => "inf"
       | S754_infinity true => "-inf"
       | _ => "0"
       end.

(** A Hash [{a: {}}] and a Hash [{a: [1, 2, 3]}]. *)
Definition hash_a_empty : Context :=
  Context_of_Hash (<["a" := Context_of_Hash ∅]> ∅).
Definition hash_a_array : Context :=
  Context_of_Hash
    (<["a" := Context_of_Array
                [Context_of_int 1; Context_of_int 2; Context_of_int 3]]> ∅).


(** ** Further members of [Liquid::Context] *)

(** [Context::operator=] applied to another object: the tag and the member
    the tag selects are taken from [ctx], the other members keep what they
    held. (Assignment of an object to itself is guarded and changes
    nothing.) *)
Definition Context_assign (self ctx : Context) : Context :=
  match type_ ctx with
  | Type_.Hash =>
      mkContext Type_.Hash (hash_ ctx) (array_ self) (string_ self)
                (number_ self)
  | Type_.Array =>
      mkContext Type_.Array (hash_ self) (array_ ctx) (string_ self)
                (number_ self)
  | Type_.String =>
      mkContext Type_.String (hash_ self) (array_ self) (string_ ctx)
                (number_ self)
  | Type_.NumberInt =>
      mkContext Type_.NumberInt (hash_ self) (array_ self) (string_ self)
                (number_i (number_union_i (number_ ctx)))
  | Type_.NumberFloat =>
      mkContext Type_.NumberFloat (hash_ self) (array_ self) (string_ self)
                (number_f (number_union_f (number_ ctx)))
  | Type_.BooleanTrue =>
      mkContext Type_.BooleanTrue (hash_ self) (array_ self) (string_ self)
                (number_ self)
  | Type_.BooleanFalse =>
      mkContext Type_.BooleanFalse (hash_ self) (array_ self) (string_ self)
                (number_ self)
  | Type_.Nil =>
      mkContext Type_.Nil (hash_ self) (array_ self) (string_ self)
                (number_ self)
  end.

(** [Context::toBool]. *)
Definition Context_toBool (c : Context) : bool :=
  if bool_decide (type_ c = Type_.BooleanTrue) then true else false.

(** [Context::at]: [QList::at] is defined for [0 <= index < size()] only;
    [None] stands for an index outside that range. The tag is not looked
    at. *)
Definition Context_at (c : Context) (index : int) : option Context :=
  if (0 <=? index)%Z && (index <? Z.of_nat (length (array_ c)))%Z
  then array_ c !! Z.to_nat index
  else None.

(** [Context::insert] with a [value] that is another object than [c] and
    than what [c] stores: [QHash::insert] assigns to the value already
    stored under [key], and stores a copy of [value] under a key that is
    new. The tag is not looked at. This is the call on a table whose data no
    other handle shares; see [Context_insert_shared] for the other case. *)
Definition Context_insert (c : Context) (key : string) (value : Context)
  : Context :=
  mkContext (type_ c)
            (<[key := match hash_ c !! key with
                      | Some stored => Context_assign stored value
                      | None => Context_copy value
                      end]> (hash_ c))
            (array_ c) (string_ c) (number_ c).

(** Before a write, a [QHash] or [QList] whose data is shared with another
    handle detaches: the data is duplicated, every stored Context being
    copy-constructed. *)
Definition QHash_detached (h : gmap string Context) : gmap string Context :=
  Context_copy <$> h.

Definition QList_detached (l : list Context) : list Context :=
  Context_copy <$> l.

(** [Context::insert] on a table whose data is shared: the table detaches,
    then the insertion goes as in [Context_insert]. *)
Definition Context_insert_shared (c : Context) (key : string)
    (value : Context) : Context :=
  Context_insert
    (mkContext (type_ c) (QHash_detached (hash_ c)) (array_ c) (string_ c)
               (number_ c))
    key value.

(** [Context::push_back] on an Array whose list data is shared: the list
    detaches, then the element is appended as in [Context_push_back]. On
    another variant nothing is written and nothing detaches. *)
Definition Context_push_back_shared (c ctx : Context) : Context :=
  if Context_isArray c then
    Context_push_back
      (mkContext (type_ c) (hash_ c) (QList_detached (array_ c)) (string_ c)
                 (number_ c))
      ctx
  else c.

(** [Context::operator[]]. The tag is not looked at. *)
Definition Context_index (c : Context) (key : string) : Context :=
  match hash_ c !! key with
  | None => kNilContext
  | Some v => v
  end.

(** The number of Contexts nested in [c], [c] included. *)
Fixpoint Context_weight (c : Context) : nat :=
  S (map_fold (λ _ v acc, Context_weight v + acc) 0 (hash_ c)
     + (fix weight_of (l : list Context) : nat :=
          match l with
          | [] => 0
          | x :: l' => Context_weight x + weight_of l'
          end) (array_ c)).

(** A [double] that is not a NaN. *)
Definition double_is_number (x : double) : bool :=
  match x with S754_nan => false | _ => true end.

(** No NaN is stored in a member that [operator==] reads, at any depth. *)
Fixpoint Context_nan_free (c : Context) : bool :=
  match type_ c with
  | Type_.Hash => map_fold (λ _ v acc, acc && Context_nan_free v) true (hash_ c)
  | Type_.Array =>
      (fix all_nan_free (l : list Context) : bool :=
         match l with
         | [] => true
         | x :: l' => Context_nan_free x && all_nan_free l'
         end) (array_ c)
  | Type_.NumberFloat => double_is_number (number_union_f (number_ c))
  | _ => true
  end.

(** The weight of the elements of an Array member. *)
Fixpoint Context_array_weight (l : list Context) : nat :=
  match l with
  | [] => 0
  | x :: l' => Context_weight x + Context_array_weight l'
  end.

(** [QList<Context>::operator==], the Array case of [Context::operator==]:
    same length and pairwise equal elements. *)
Fixpoint Context_array_eqb (l1 l2 : list Context) : bool :=
  match l1, l2 with
  | [], [] => true
  | x :: l1, y :: l2 => Context_eqb x y && Context_array_eqb l1 l2
  | _, _ => false
  end.

(** * Properties *)

(** ** Results *)

Lemma is_Ok_Ok {A} (a : A) : is_Ok (Ok a).
Proof. by exists a. Qed.

Lemma is_Throw_Throw {A} (e : exception) : is_Throw (@Throw A e).
Proof. by exists e. Qed.

Lemma not_is_Throw_Ok {A} (a : A) : ¬ is_Throw (Ok a).
Proof. by intros [e ?]. Qed.

Lemma not_is_Ok_Throw {A} (e : exception) : ¬ is_Ok (@Throw A e).
Proof. by intros [a ?]. Qed.

(** ** The type tag *)

Lemma Context_isNil_kNilContext : Context_isNil kNilContext = true.
Proof. reflexivity. Qed.

Lemma Context_isHash_isArray c :
  Context_isArray c = true → Context_isHash c = false.
Proof.
  unfold Context_isArray, Context_isHash.
  intros Ha%bool_decide_eq_true. rewrite Ha. reflexivity.
Qed.

(** ** Lookup evaluation *)

(** Induction over expressions that reaches the children of a path. *)
Lemma Expression_ind' (P : Expression → Prop) :
  (∀ value, P (Literal value)) →
  (∀ key, P (LookupKey key)) →
  (∀ lookups, Forall P lookups → P (Lookup lookups)) →
  ∀ e, P e.
Proof.
  intros HLiteral HKey HPath. fix IH 1. intros [value|key|lookups].
  - apply HLiteral.
  - apply HKey.
  - apply HPath. induction lookups as [|e lookups IHl]; constructor.
    + apply IH.
    + apply IHl.
Qed.

Lemma Context_evaluate_Lookup c lookups :
  Context_evaluate c (Lookup lookups) = Context_walk c lookups.
Proof.
  revert c. induction lookups as [|e lookups IH]; intros c; [reflexivity|].
  cbn [Context_evaluate Context_walk].
  destruct (Context_evaluate c e) as [r|x]; [|reflexivity].
  destruct (Context_isNil r); [reflexivity|].
  rewrite <- IH. reflexivity.
Qed.

Lemma Context_evaluate_LookupKey_miss c key :
  Context_isHash c = false ∨ hash_ c !! key = None →
  Context_evaluate c (LookupKey key) = Ok kNilContext.
Proof.
  intros Hmiss. cbn [Context_evaluate].
  destruct (Context_isHash c); [|reflexivity].
  destruct Hmiss as [Hh|Hk]; [discriminate|]. rewrite Hk. reflexivity.
Qed.

(** Once the walk stands in [c'], what remains is evaluated from there. *)
Lemma walks_Context_walk c pre c' rest :
  walks c pre c' → Context_walk c (pre ++ rest) = Context_walk c' rest.
Proof.
  induction 1 as [c|c step r pre c' Hstep Hnil _ IH]; [reflexivity|].
  cbn [app Context_walk]. rewrite Hstep, Hnil. exact IH.
Qed.

Lemma misses_yields_Nil c e :
  misses c e → Context_evaluate c e = Ok kNilContext.
Proof.
  induction 1 as [c key Hh|c key Hh Hk|c pre step post c' Hw _ IH].
  - apply Context_evaluate_LookupKey_miss. by left.
  - apply Context_evaluate_LookupKey_miss. by right.
  - rewrite Context_evaluate_Lookup, (walks_Context_walk _ _ _ _ Hw).
    cbn [Context_walk]. rewrite IH, Context_isNil_kNilContext. reflexivity.
Qed.

(** A walk that throws has reached a step that throws. *)
Lemma Context_walk_throws_inv c lookups :
  is_Throw (Context_walk c lookups) →
  ∃ pre step post c',
    lookups = pre ++ step :: post ∧ walks c pre c'
    ∧ is_Throw (Context_evaluate c' step).
Proof.
  revert c. induction lookups as [|e lookups IH]; intros c Hthrow.
  - cbn in Hthrow. by apply not_is_Throw_Ok in Hthrow.
  - cbn [Context_walk] in Hthrow.
    destruct (Context_evaluate c e) as [r|x] eqn:He.
    + destruct (Context_isNil r) eqn:Hnil.
      * by apply not_is_Throw_Ok in Hthrow.
      * destruct (IH r Hthrow) as (pre & step & post & c' & -> & Hw & Hs).
        exists (e :: pre), step, post, c'. split; [reflexivity|].
        split; [|exact Hs]. by eapply walks_cons.
    + exists [], e, lookups, c. split; [reflexivity|].
      split; [constructor|]. rewrite He. apply is_Throw_Throw.
Qed.

Lemma Context_evaluate_throws_reaches c e :
  is_Throw (Context_evaluate c e) → reaches_non_lookup c e.
Proof.
  revert c. induction e as [value|key|lookups IH] using Expression_ind';
    intros c Hthrow.
  - by apply reaches_here.
  - cbn [Context_evaluate] in Hthrow.
    destruct (Context_isHash c); [destruct (hash_ c !! key)|];
      by apply not_is_Throw_Ok in Hthrow.
  - rewrite Context_evaluate_Lookup in Hthrow.
    apply Context_walk_throws_inv in Hthrow
      as (pre & step & post & c' & -> & Hw & Hs).
    apply reaches_in_path with c'; [exact Hw|].
    rewrite Forall_app, Forall_cons in IH. destruct IH as (_ & IHstep & _).
    by apply IHstep.
Qed.

Lemma reaches_Context_evaluate_throws c e :
  reaches_non_lookup c e → is_Throw (Context_evaluate c e).
Proof.
  induction 1 as [c e Hk Hl|c pre step post c' Hw _ IH].
  - destruct e; try discriminate. apply is_Throw_Throw.
  - destruct IH as [x Hx].
    rewrite Context_evaluate_Lookup, (walks_Context_walk _ _ _ _ Hw).
    cbn [Context_walk]. rewrite Hx. apply is_Throw_Throw.
Qed.

Lemma lookup_shaped_is_Ok c e :
  lookup_shaped e = true → is_Ok (Context_evaluate c e).
Proof.
  revert c. induction e as [value|key|lookups IH] using Expression_ind';
    intros c Hshape.
  - discriminate.
  - cbn [Context_evaluate].
    destruct (Context_isHash c); [destruct (hash_ c !! key)|]; apply is_Ok_Ok.
  - rewrite Context_evaluate_Lookup. cbn [lookup_shaped] in Hshape.
    revert c. induction IH as [|e lookups He _ IHl]; intros c.
    + apply is_Ok_Ok.
    + cbn [forallb] in Hshape. apply andb_prop in Hshape as [Hs Hrest].
      cbn [Context_walk]. destruct (He c Hs) as [r ->].
      destruct (Context_isNil r); [apply is_Ok_Ok|]. by apply IHl.
Qed.

(** A step that is a Literal makes the walk raise where it is reached. *)
Lemma walks_Literal_raises c pre value post c' :
  walks c pre c' →
  Context_evaluate c (Lookup (pre ++ Literal value :: post))
  = Throw (EvaluationError (Literal value)).
Proof.
  intros Hw. rewrite Context_evaluate_Lookup, (walks_Context_walk _ _ _ _ Hw).
  reflexivity.
Qed.

(** C3, as the code has it: for every Context and every Lookup path, when
    the walk reaches a key step that misses (a key absent from a Hash, or a
    key step applied to a Context that is not a Hash, an Array included) the
    evaluation returns Nil, raises nothing, and does not depend on the steps
    after the missing one: it stops at the first step that yields Nil.
    [Context::evaluate] has no array indexing: a numeric index step, which is
    a Literal, raises where the walk reaches it, in range or not. *)
Theorem Context_evaluate_miss_is_Nil
    (c : Context) (pre : list Expression) (step : Expression)
    (post : list Expression) (c' : Context) :
  walks c pre c' →
  misses c' step →
  Context_evaluate c (Lookup (pre ++ step :: post)) = Ok kNilContext
  ∧ Context_isNil kNilContext = true
  ∧ (∀ index, Context_evaluate c (Lookup (pre ++ Literal index :: post))
              = Throw (EvaluationError (Literal index))).
Proof.
  intros Hw Hmiss. split; [|split; [reflexivity|]].
  - apply misses_yields_Nil. by apply miss_in_path with c'.
  - intros index. by apply walks_Literal_raises with c'.
Qed.

Lemma Context_evaluate_miss_is_Nil_witness :
  walks hash_a_empty [LookupKey "a"] (Context_of_Hash ∅)
  ∧ misses (Context_of_Hash ∅) (LookupKey "b")
  ∧ Context_evaluate hash_a_empty
      (Lookup ([LookupKey "a"] ++ LookupKey "b"
                 :: [Literal (Context_of_int 0)])) = Ok kNilContext
  ∧ Context_isNil kNilContext = true.
Proof.
  assert (Hw : walks hash_a_empty [LookupKey "a"] (Context_of_Hash ∅)).
  { apply walks_cons with (Context_of_Hash ∅);
      [reflexivity | reflexivity | apply walks_nil]. }
  assert (Hm : misses (Context_of_Hash ∅) (LookupKey "b")).
  { apply miss_absent_key; reflexivity. }
  split; [exact Hw|]. split; [exact Hm|].
  destruct (Context_evaluate_miss_is_Nil hash_a_empty [LookupKey "a"]
              (LookupKey "b") [Literal (Context_of_int 0)] (Context_of_Hash ∅)
              Hw Hm) as (Hnil & Hisnil & _).
  split; [exact Hnil | exact Hisnil].
Defined.

(** C3 as stated fails: in [{a: [1, 2, 3]}] the path [a] arrives at an Array
    of three elements; the index step 5, out of range, does not yield Nil:
    the evaluation raises. So does the index step 0, in range. *)
Lemma Context_evaluate_index_raises :
  Context_evaluate hash_a_array (Lookup [LookupKey "a"])
  = Ok (Context_of_Array
          [Context_of_int 1; Context_of_int 2; Context_of_int 3])
  ∧ Context_at
      (Context_of_Array [Context_of_int 1; Context_of_int 2; Context_of_int 3])
      5 = None
  ∧ Context_evaluate hash_a_array
      (Lookup [LookupKey "a"; Literal (Context_of_int 5)])
    = Throw (EvaluationError (Literal (Context_of_int 5)))
  ∧ Context_evaluate hash_a_array
      (Lookup [LookupKey "a"; Literal (Context_of_int 0)])
    = Throw (EvaluationError (Literal (Context_of_int 0))).
Proof. repeat split. Qed.

(** A key step on an Array is a key step on a Context that is not a Hash. *)
Example Context_evaluate_Array_index :
  Context_evaluate hash_a_array (Lookup [LookupKey "a"; LookupKey "5"])
  = Ok kNilContext
  ∧ Context_evaluate hash_a_array (Lookup [LookupKey "a"; LookupKey "0"])
    = Ok kNilContext.
Proof. split; reflexivity. Qed.

(** C5, as the code has it: [Context::evaluate] raises exactly when the
    evaluation arrives at an expression that is neither a Lookup nor a
    LookupKey, which is the argument itself or a step of a path reached by
    the walk; and it returns a value without raising for every LookupKey and
    for every Lookup whose steps are, all the way down, Lookups and
    LookupKeys. *)
Theorem Context_evaluate_raises_iff (c : Context) (e : Expression) :
  (is_Throw (Context_evaluate c e) ↔ reaches_non_lookup c e)
  ∧ (lookup_shaped e = true → is_Ok (Context_evaluate c e)).
Proof.
  split; [split|].
  - apply Context_evaluate_throws_reaches.
  - apply reaches_Context_evaluate_throws.
  - apply lookup_shaped_is_Ok.
Qed.

Lemma Context_evaluate_raises_iff_witness :
  lookup_shaped (Lookup [LookupKey "a"; Lookup [LookupKey "b"]]) = true
  ∧ is_Ok (Context_evaluate hash_a_empty
             (Lookup [LookupKey "a"; Lookup [LookupKey "b"]])).
Proof.
  split; [reflexivity|].
  exact (proj2 (Context_evaluate_raises_iff hash_a_empty
                  (Lookup [LookupKey "a"; Lookup [LookupKey "b"]]))
               eq_refl).
Defined.

(** C5 as stated fails: this expression is a Lookup, and evaluating it
    raises, because its only step is a Literal. *)
Lemma Context_evaluate_Lookup_raises :
  Expression_isLookup (Lookup [Literal (Context_of_int 0)]) = true
  ∧ Context_evaluate kNilContext (Lookup [Literal (Context_of_int 0)])
    = Throw (EvaluationError (Literal (Context_of_int 0)))
  ∧ ¬ (∀ c e, is_Throw (Context_evaluate c e)
              ↔ (Expression_isLookupKey e = false
                 ∧ Expression_isLookup e = false)).
Proof.
  split; [reflexivity|]. split; [reflexivity|].
  intros Hclaim.
  destruct (Hclaim kNilContext (Lookup [Literal (Context_of_int 0)]))
    as [Hthrow _].
  destruct Hthrow as [_ Hl]; [apply is_Throw_Throw | discriminate Hl].
Qed.

(** ** Equality, truthiness, [push_back] *)

(** C4: [operator==] on two Contexts of different variants is false, in
    either order. At [1] and [1.0] this is the NumberInt/NumberFloat case. *)
Theorem Context_eqb_different_variant (c other : Context) :
  Context_type c ≠ Context_type other →
  Context_eqb c other = false ∧ Context_eqb other c = false.
Proof.
  unfold Context_type. intros Hne. split.
  - destruct c as [t h a s n], other as [t' h' a' s' n']. cbn in Hne |- *.
    rewrite (bool_decide_eq_false_2 _ Hne). reflexivity.
  - destruct c as [t h a s n], other as [t' h' a' s' n']. cbn in Hne |- *.
    rewrite bool_decide_eq_false_2; [reflexivity | congruence].
Qed.

Lemma Context_eqb_different_variant_witness :
  Context_type (Context_of_int 1)
    ≠ Context_type (Context_of_double (double_of_int 1))
  ∧ Context_eqb (Context_of_int 1) (Context_of_double (double_of_int 1))
    = false
  ∧ Context_eqb (Context_of_double (double_of_int 1)) (Context_of_int 1)
    = false.
Proof.
  assert (Hne : Context_type (Context_of_int 1)
                ≠ Context_type (Context_of_double (double_of_int 1)))
    by discriminate.
  split; [exact Hne|].
  exact (Context_eqb_different_variant (Context_of_int 1)
           (Context_of_double (double_of_int 1)) Hne).
Defined.

(** Within one variant the payloads decide. *)
Example Context_eqb_same_variant :
  Context_eqb (Context_of_int 1) (Context_of_int 1) = true
  ∧ Context_eqb (Context_of_int 1) (Context_of_int 2) = false
  ∧ Context_eqb (Context_of_double (double_of_int 1))
      (Context_of_double (double_of_int 1)) = true
  ∧ Context_eqb hash_a_array hash_a_array = true
  ∧ Context_eqb hash_a_array hash_a_empty = false.
Proof. repeat split; vm_compute; reflexivity. Qed.

(** C6: [isTruthy] is false exactly on the Nil and BooleanFalse variants; it
    is true on every other one, the integer 0, the empty String, the empty
    Array and the empty Hash included. *)
Theorem Context_isTruthy_false_iff :
  (∀ c, Context_isTruthy c = false
        ↔ Context_type c = Type_.Nil ∨ Context_type c = Type_.BooleanFalse)
  ∧ (∀ c, Context_isTruthy c = true
          ↔ Context_type c ≠ Type_.Nil ∧ Context_type c ≠ Type_.BooleanFalse)
  ∧ Context_isTruthy (Context_of_int 0) = true
  ∧ Context_isTruthy (Context_of_QString EmptyString) = true
  ∧ Context_isTruthy (Context_of_Array []) = true
  ∧ Context_isTruthy (Context_of_Hash ∅) = true.
Proof.
  split; [|split; [|repeat split]].
  - intros c. unfold Context_isTruthy, Context_type.
    destruct (type_ c); split; intros Hf; try discriminate;
      try (destruct Hf; discriminate); auto.
  - intros c. unfold Context_isTruthy, Context_type.
    destruct (type_ c); split; intros Ht; try discriminate;
      try (destruct Ht; congruence); split; discriminate.
Qed.

Section PushBack.
Context `{QtNumberFormat}.

(** C10: on a Context that is not an Array, [push_back] changes nothing: the
    object is the same afterwards, so its variant and whatever [evaluate],
    [toString], [operator==] and [size] report are the same; the function has
    no raising path. *)
Theorem Context_push_back_not_Array (c ctx : Context) :
  Context_isArray c = false →
  Context_push_back c ctx = c
  ∧ Context_type (Context_push_back c ctx) = Context_type c
  ∧ (∀ e, Context_evaluate (Context_push_back c ctx) e = Context_evaluate c e)
  ∧ Context_toString (Context_push_back c ctx) = Context_toString c
  ∧ (∀ other, Context_eqb (Context_push_back c ctx) other = Context_eqb c other
              ∧ Context_eqb other (Context_push_back c ctx)
                = Context_eqb other c)
  ∧ Context_size (Context_push_back c ctx) = Context_size c.
Proof.
  intros Hna.
  assert (Hsame : Context_push_back c ctx = c)
    by (unfold Context_push_back; rewrite Hna; reflexivity).
  rewrite Hsame. repeat split.
Qed.

End PushBack.

Lemma Context_push_back_not_Array_witness :
  Context_isArray (Context_of_QString "abc") = false
  ∧ Context_push_back (Context_of_QString "abc") (Context_of_int 7)
    = Context_of_QString "abc".
Proof.
  split; [reflexivity|].
  exact (proj1 (@Context_push_back_not_Array plain_number_format
                  (Context_of_QString "abc") (Context_of_int 7) eq_refl)).
Defined.

(** On an Array the element is appended. *)
Example Context_push_back_Array :
  array_ (Context_push_back (Context_of_Array [Context_of_int 1])
            (Context_of_int 7))
  = [Context_of_int 1; Context_of_int 7].
Proof. reflexivity. Qed.

(** ** Texts *)

Lemma QString_append_cons a s t :
  String.String a s +:+ t = String.String a (s +:+ t).
Proof. reflexivity. Qed.

Lemma QString_append_empty_l s : EmptyString +:+ s = s.
Proof. reflexivity. Qed.

Lemma QString_append_empty_r s : s +:+ EmptyString = s.
Proof.
  induction s as [|a s IH]; [reflexivity|].
  rewrite QString_append_cons, IH. reflexivity.
Qed.

Lemma QString_append_assoc s t u : (s +:+ t) +:+ u = s +:+ (t +:+ u).
Proof.
  induction s as [|a s IH]; [reflexivity|].
  rewrite !QString_append_cons, IH. reflexivity.
Qed.

(** ** [BlockBody::parse] *)

Lemma TagKind_name_elem_of tagName :
  (∃ kind, tagName = TagKind_name kind) ↔ tagName ∈ parse_tag_names.
Proof.
  unfold parse_tag_names. rewrite !elem_of_cons, elem_of_nil. split.
  - intros [[] ->]; cbn; tauto.
  - intros [->|[->|[->|[->|[->|[]]]]]];
      [by exists AssignTag|by exists CommentTag|by exists CaptureTag
      |by exists IncrementTag|by exists DecrementTag].
Qed.

Section BlockBodyParse.
Context `{Collaborators}.

Lemma BlockBody_parse_loop_end skip h (nodes_ : list Node) :
  BlockBody_parse_loop [] skip h nodes_
  = (tokenizer' ← h None []; Ok (nodes_, tokenizer')).
Proof. destruct skip; reflexivity. Qed.

Lemma BlockBody_parse_loop_Text s rest h (nodes_ : list Node) :
  BlockBody_parse_loop (Text_component s :: rest) 0 h nodes_
  = BlockBody_parse_loop rest 0 h (nodes_ ++ [TextNode s]).
Proof. reflexivity. Qed.

(** A tag whose name is one of the five is built by its class; comment and
    capture then read on from the tokenizer. *)
Lemma BlockBody_parse_loop_Tag_known markup rest h (nodes_ : list Node)
    parser tagName parser' kind :
  Parser_new markup = Ok parser →
  Parser_consume_Id parser = Ok (tagName, parser') →
  tagName = TagKind_name kind →
  BlockBody_parse_loop (Tag_component markup :: rest) 0 h nodes_
  = (tag ← Tag_new kind tagName parser';
     if TagKind_reads_tokenizer kind then
       '(tag, n) ← Tag_parse kind tag rest;
       BlockBody_parse_loop rest n h (nodes_ ++ [TagNode kind tag])
     else BlockBody_parse_loop rest 0 h (nodes_ ++ [TagNode kind tag])).
Proof.
  intros Hnew Hid ->.
  cbn [BlockBody_parse_loop Tag_component Component_type innerText].
  rewrite Hnew. cbn [mbind result_bind bind]. rewrite Hid.
  cbn [mbind result_bind bind]. destruct kind; reflexivity.
Qed.

(** Any other tag name goes to the handler, and the loop ends there. *)
Lemma BlockBody_parse_loop_Tag_unknown markup rest h (nodes_ : list Node)
    parser tagName parser' :
  Parser_new markup = Ok parser →
  Parser_consume_Id parser = Ok (tagName, parser') →
  (∀ kind, tagName ≠ TagKind_name kind) →
  BlockBody_parse_loop (Tag_component markup :: rest) 0 h nodes_
  = (tokenizer' ← h (Some tagName) rest; Ok (nodes_, tokenizer')).
Proof.
  intros Hnew Hid Hne.
  cbn [BlockBody_parse_loop Tag_component Component_type innerText].
  rewrite Hnew. cbn [mbind result_bind bind]. rewrite Hid.
  cbn [mbind result_bind bind].
  assert (Hassign : String.eqb tagName "assign" = false)
    by apply String.eqb_neq, (Hne AssignTag).
  assert (Hcomment : String.eqb tagName "comment" = false)
    by apply String.eqb_neq, (Hne CommentTag).
  assert (Hcapture : String.eqb tagName "capture" = false)
    by apply String.eqb_neq, (Hne CaptureTag).
  assert (Hincrement : String.eqb tagName "increment" = false)
    by apply String.eqb_neq, (Hne IncrementTag).
  assert (Hdecrement : String.eqb tagName "decrement" = false)
    by apply String.eqb_neq, (Hne DecrementTag).
  rewrite Hassign, Hcomment, Hcapture, Hincrement, Hdecrement.
  reflexivity.
Qed.

Lemma BlockBody_parse_loop_texts texts h (nodes_ : list Node) :
  BlockBody_parse_loop (map Text_component texts) 0 h nodes_
  = (tokenizer' ← h None [];
     Ok (nodes_ ++ map TextNode texts, tokenizer')).
Proof.
  revert nodes_. induction texts as [|s texts IH]; intros nodes_.
  - cbn [map]. rewrite BlockBody_parse_loop_end, app_nil_r. reflexivity.
  - cbn [map]. rewrite BlockBody_parse_loop_Text, IH, <- app_assoc.
    reflexivity.
Qed.

(** C2, as the code has it: the tag dispatch of [BlockBody::parse] compares
    the tag name, case-sensitively, with exactly assign, comment, capture,
    increment and decrement, and builds the node of the matching class; every
    other name, [if] and any casing variant included, is passed to the
    active unknown-tag handler, after which [parse] returns. *)
Theorem BlockBody_parse_tag_dispatch
    (markup : string) (rest : Tokenizer) (h : UnknownTagHandler)
    (nodes_ : list Node) (parser : Parser) (tagName : string)
    (parser' : Parser) :
  Parser_new markup = Ok parser →
  Parser_consume_Id parser = Ok (tagName, parser') →
  (∀ kind, tagName = TagKind_name kind →
     BlockBody_parse_loop (Tag_component markup :: rest) 0 h nodes_
     = (tag ← Tag_new kind tagName parser';
        if TagKind_reads_tokenizer kind then
          '(tag, n) ← Tag_parse kind tag rest;
          BlockBody_parse_loop rest n h (nodes_ ++ [TagNode kind tag])
        else BlockBody_parse_loop rest 0 h (nodes_ ++ [TagNode kind tag])))
  ∧ (tagName ∉ parse_tag_names →
     BlockBody_parse_loop (Tag_component markup :: rest) 0 h nodes_
     = (tokenizer' ← h (Some tagName) rest; Ok (nodes_, tokenizer')))
  ∧ ((∃ kind, tagName = TagKind_name kind) ↔ tagName ∈ parse_tag_names).
Proof.
  intros Hnew Hid. split; [|split].
  - intros kind Hkind. by eapply BlockBody_parse_loop_Tag_known.
  - intros Hnot. eapply BlockBody_parse_loop_Tag_unknown; [done..|].
    intros kind Hkind. apply Hnot, TagKind_name_elem_of. by exists kind.
  - apply TagKind_name_elem_of.
Qed.

(** With the default handler, [parse] returns normally only when the whole
    input has been read. *)
Lemma BlockBody_parse_loop_default_Ok tokenizer skip
    (nodes_ nodes' : list Node) tokenizer' :
  BlockBody_parse_loop tokenizer skip BlockBody_defaultUnknownTagHandler nodes_
  = Ok (nodes', tokenizer') →
  tokenizer' = [].
Proof.
  revert skip nodes_.
  induction tokenizer as [|comp rest IH]; intros skip nodes_ Hparse.
  - rewrite BlockBody_parse_loop_end in Hparse. by injection Hparse.
  - destruct skip as [|skip]; [|by eapply IH].
    cbn [BlockBody_parse_loop] in Hparse.
    destruct (Component_type comp).
    + by eapply IH.
    + destruct (Variable_new (innerText comp)); [|discriminate].
      by eapply IH.
    + destruct (Parser_new (innerText comp)) as [parser|]; [|discriminate].
      cbn [mbind result_bind bind] in Hparse.
      destruct (Parser_consume_Id parser) as [[tagName parser']|];
        [|discriminate].
      cbn [mbind result_bind bind] in Hparse.
      repeat
        match type of Hparse with
        | (if ?b then _ else _) = _ => destruct b
        | mbind _ (BlockBody_defaultUnknownTagHandler (Some ?n) ?t) = _ =>
            change (BlockBody_defaultUnknownTagHandler (Some n) t)
              with (@Throw Tokenizer (UnknownTagError (unknown_tag_message n)))
              in Hparse;
            cbn [mbind result_bind bind] in Hparse
        | mbind _ ?r = _ =>
            destruct r as [?|?]; cbn [mbind result_bind bind] in Hparse
        | (let '(_, _) := ?p in _) = _ => destruct p
        | Throw _ = Ok _ => discriminate Hparse
        end;
        by eapply IH.
Qed.

(** C7: at the end of the input [BlockBody::parse] calls the handler with the
    null tag name; the default handler does nothing on the null name, so a
    template without tags parses to its nodes, and with the default handler
    [parse] returns normally only once the whole input is read; on a real
    name the default handler raises a message that contains the name, and so
    does [parse] when it meets a tag name it does not dispatch. *)
Theorem BlockBody_parse_end_of_input
    (tokenizer : Tokenizer) (name : string) (skip : nat)
    (nodes_ : list Node) (texts : list string) :
  BlockBody_defaultUnknownTagHandler None tokenizer = Ok tokenizer
  ∧ BlockBody_defaultUnknownTagHandler (Some name) tokenizer
    = Throw (UnknownTagError ("Unknown tag '" +:+ name +:+ "'"))
  ∧ (∀ h, BlockBody_parse_loop [] skip h nodes_
          = (tokenizer' ← h None []; Ok (nodes_, tokenizer')))
  ∧ BlockBody_parse_loop [] skip BlockBody_defaultUnknownTagHandler nodes_
    = Ok (nodes_, [])
  ∧ BlockBody_parse (map Text_component texts)
      BlockBody_defaultUnknownTagHandler
    = Ok (map TextNode texts, [])
  ∧ (∀ nodes' tokenizer',
       BlockBody_parse tokenizer BlockBody_defaultUnknownTagHandler
       = Ok (nodes', tokenizer') →
       tokenizer' = [])
  ∧ (∀ markup rest parser parser',
       Parser_new markup = Ok parser →
       Parser_consume_Id parser = Ok (name, parser') →
       name ∉ parse_tag_names →
       BlockBody_parse (Tag_component markup :: rest)
         BlockBody_defaultUnknownTagHandler
       = Throw (UnknownTagError ("Unknown tag '" +:+ name +:+ "'"))).
Proof.
  split; [reflexivity|]. split; [reflexivity|].
  split; [intros h; apply BlockBody_parse_loop_end|].
  split; [by rewrite BlockBody_parse_loop_end|].
  split; [|split].
  - unfold BlockBody_parse. by rewrite BlockBody_parse_loop_texts.
  - intros nodes' tokenizer'. apply BlockBody_parse_loop_default_Ok.
  - intros markup rest parser parser' Hnew Hid Hnot. unfold BlockBody_parse.
    erewrite BlockBody_parse_loop_Tag_unknown; [reflexivity|done..|].
    intros kind Hkind. apply Hnot, TagKind_name_elem_of. by exists kind.
Qed.

End BlockBodyParse.

(** ** [BlockBody::render] *)

Section BlockBodyRender.
Context `{Collaborators}.

(** The accumulator ends as its initial value followed by the node texts. *)
Lemma BlockBody_render_loop_node_texts (nodes : list Node) context str :
  BlockBody_render_loop nodes context str
  = ('(texts, context') ← node_texts nodes context;
     Ok (str +:+ QString_concat texts, context')).
Proof.
  revert context str. induction nodes as [|node rest IH]; intros context str.
  - cbn. by rewrite QString_append_empty_r.
  - cbn [BlockBody_render_loop node_texts].
    destruct (Node_render node context) as [[s context']|e]; [|reflexivity].
    cbn [mbind result_bind bind]. rewrite IH.
    destruct (node_texts rest context') as [[texts context'']|e];
      [|reflexivity].
    cbn [mbind result_bind bind QString_concat fold_right].
    by rewrite QString_append_assoc.
Qed.

Lemma node_texts_length (nodes : list Node) context texts context' :
  node_texts nodes context = Ok (texts, context') →
  length texts = length nodes.
Proof.
  revert context texts. induction nodes as [|node rest IH];
    intros context texts Htexts.
  - cbn in Htexts. by injection Htexts as <- _.
  - cbn [node_texts] in Htexts.
    destruct (Node_render node context) as [[s c1]|e]; [|discriminate].
    cbn [mbind result_bind bind] in Htexts.
    destruct (node_texts rest c1) as [[ts c2]|e] eqn:Hrest; [|discriminate].
    cbn [mbind result_bind bind] in Htexts. injection Htexts as <- <-.
    cbn [length]. f_equal. by eapply IH.
Qed.

Lemma node_texts_TextNode (ts : list string) context :
  node_texts (map TextNode ts) context = Ok (ts, context).
Proof.
  induction ts as [|s ts IH]; [reflexivity|].
  cbn [map node_texts Node_render mbind result_bind bind].
  rewrite IH. reflexivity.
Qed.

(** C8: [BlockBody::render] returns the texts of its nodes, each rendered in
    turn, concatenated in sequence order with nothing in between: one text
    per node, none left out; when a node raises, so does [render]. A body of
    text nodes renders to their texts, and a template read as literal text
    only renders to that text. *)
Theorem BlockBody_render_concatenates (nodes : list Node) (context : Context) :
  (∀ texts context',
     node_texts nodes context = Ok (texts, context') →
     BlockBody_render nodes context = Ok (QString_concat texts, context')
     ∧ length texts = length nodes)
  ∧ (∀ e, node_texts nodes context = Throw e →
          BlockBody_render nodes context = Throw e)
  ∧ (∀ ts, BlockBody_render (map TextNode ts) context
           = Ok (QString_concat ts, context))
  ∧ (∀ ts, (parsed ← BlockBody_parse (map Text_component ts)
                       BlockBody_defaultUnknownTagHandler;
            BlockBody_render (fst parsed) context)
           = Ok (QString_concat ts, context))
  ∧ (∀ s, (parsed ← BlockBody_parse [Text_component s]
                      BlockBody_defaultUnknownTagHandler;
           BlockBody_render (fst parsed) context)
          = Ok (s, context)).
Proof.
  unfold BlockBody_render. split; [|split; [|split; [|split]]].
  - intros texts context' Htexts. split; [|by eapply node_texts_length].
    rewrite BlockBody_render_loop_node_texts, Htexts. reflexivity.
  - intros e He. rewrite BlockBody_render_loop_node_texts, He. reflexivity.
  - intros ts.
    rewrite BlockBody_render_loop_node_texts, node_texts_TextNode.
    reflexivity.
  - intros ts. unfold BlockBody_parse.
    rewrite BlockBody_parse_loop_texts.
    cbn [BlockBody_defaultUnknownTagHandler QStringRef_isNull negb
         mbind result_bind bind fst app].
    rewrite BlockBody_render_loop_node_texts, node_texts_TextNode.
    reflexivity.
  - intros s. reflexivity.
Qed.

End BlockBodyRender.

(** ** [Condition::evaluate] *)

Section ConditionChain.
Context `{Collaborators} `{QtNumberFormat}.

Lemma Condition_comparison_setLogicalCondition c op cond context :
  Condition_comparison (Condition_setLogicalCondition c op cond) context
  = Condition_comparison c context.
Proof. reflexivity. Qed.





End ConditionChain.


(** The comparisons of section 4.4 on the values the spec lists. *)
Example Condition_comparison_contains :
  @Condition_comparison plain_number_format
    (Condition_of_comparison (Literal (Context_of_QString "hello world"))
       Operator.Contains (Literal (Context_of_QString "wor")))
    kNilContext = Ok true
  ∧ @Condition_comparison plain_number_format
      (Condition_of_comparison (Lookup [LookupKey "a"])
         Operator.Contains (Literal (Context_of_int 2)))
      hash_a_array = Ok true
  ∧ @Condition_comparison plain_number_format
      (Condition_of_comparison (Lookup [LookupKey "a"])
         Operator.Contains (Literal (Context_of_int 5)))
      hash_a_array = Ok false.
Proof. repeat split; vm_compute; reflexivity. Qed.

Example Condition_comparison_equal :
  @Condition_comparison plain_number_format
    (Condition_of_comparison (Lookup [LookupKey "a"])
       Operator.Equal (Literal (Context_of_int 1)))
    (Context_of_Hash (<["a" := Context_of_int 1]> ∅)) = Ok true
  ∧ @Condition_comparison plain_number_format
      (Condition_of_comparison (Lookup [LookupKey "a"])
         Operator.Equal (Literal (Context_of_int 1)))
      (Context_of_Hash (<["a" := Context_of_int 2]> ∅)) = Ok false
  ∧ @Condition_comparison plain_number_format
      (Condition_of_comparison (Lookup [LookupKey "a"])
         Operator.Equal (Literal (Context_of_int 1)))
      (Context_of_Hash ∅) = Ok false
  ∧ @Condition_comparison plain_number_format
      (Condition_of_comparison (Literal (Context_of_int 1))
         Operator.LessThan (Literal (Context_of_int 2)))
      kNilContext = Ok true
  ∧ @Condition_comparison plain_number_format
      (Condition_of_comparison (Literal (Context_of_int 2))
         Operator.LessOrEqualThan (Literal (Context_of_int 1)))
      kNilContext = Ok false.
Proof. repeat split; vm_compute; reflexivity. Qed.

(** ** [BlockBody] on concrete inputs *)

Lemma BlockBody_parse_tag_dispatch_witness :
  @BlockBody_parse_loop plain_collaborators
    (Tag_component "Assign" :: [Text_component "x"]) 0
    BlockBody_defaultUnknownTagHandler []
  = Throw (UnknownTagError "Unknown tag 'Assign'").
Proof.
  assert (Hnot : "Assign" ∉ parse_tag_names).
  { unfold parse_tag_names. rewrite !elem_of_cons, elem_of_nil.
    intros [Heq|[Heq|[Heq|[Heq|[Heq|[]]]]]]; discriminate Heq. }
  exact (proj1 (proj2
    (@BlockBody_parse_tag_dispatch plain_collaborators "Assign"
       [Text_component "x"] BlockBody_defaultUnknownTagHandler []
       "Assign" "Assign" EmptyString eq_refl eq_refl)) Hnot).
Defined.

(** C2 as stated fails: [if] is one of the names the spec lists, and the
    dispatch hands it to the unknown-tag handler; no node is built for it. *)
Lemma BlockBody_parse_if_unknown :
  "if" ∈ spec_tag_names
  ∧ @BlockBody_parse plain_collaborators [Tag_component "if"]
      BlockBody_defaultUnknownTagHandler
    = Throw (UnknownTagError "Unknown tag 'if'")
  ∧ @BlockBody_parse plain_collaborators [Tag_component "if"]
      (λ _ tokenizer, Ok tokenizer)
    = Ok ([], []).
Proof.
  split; [|split; reflexivity].
  unfold spec_tag_names. rewrite !elem_of_cons. tauto.
Qed.

Lemma BlockBody_parse_end_of_input_witness :
  @BlockBody_parse plain_collaborators (Tag_component "bogus" :: [])
    BlockBody_defaultUnknownTagHandler
  = Throw (UnknownTagError ("Unknown tag '" +:+ "bogus" +:+ "'")).
Proof.
  assert (Hnot : "bogus" ∉ parse_tag_names).
  { unfold parse_tag_names. rewrite !elem_of_cons, elem_of_nil.
    intros [Heq|[Heq|[Heq|[Heq|[Heq|[]]]]]]; discriminate Heq. }
  exact (proj2 (proj2 (proj2 (proj2 (proj2 (proj2
    (@BlockBody_parse_end_of_input plain_collaborators [] "bogus" 0 [] []))))))
    "bogus" [] "bogus" EmptyString eq_refl eq_refl Hnot).
Defined.

Lemma BlockBody_render_concatenates_witness :
  @node_texts plain_collaborators [plain_TextNode "a"; plain_ObjectNode "x"; plain_TextNode "b"]
    (Context_of_Hash (<["x" := Context_of_QString "-"]> ∅))
  = Ok (["a"; "-"; "b"], Context_of_Hash (<["x" := Context_of_QString "-"]> ∅))
  ∧ @BlockBody_render plain_collaborators
      [plain_TextNode "a"; plain_ObjectNode "x"; plain_TextNode "b"]
      (Context_of_Hash (<["x" := Context_of_QString "-"]> ∅))
    = Ok ("a-b", Context_of_Hash (<["x" := Context_of_QString "-"]> ∅)).
Proof.
  split; [reflexivity|].
  exact (proj1 (proj1
    (@BlockBody_render_concatenates plain_collaborators
       [plain_TextNode "a"; plain_ObjectNode "x"; plain_TextNode "b"]
       (Context_of_Hash (<["x" := Context_of_QString "-"]> ∅)))
    ["a"; "-"; "b"]
    (Context_of_Hash (<["x" := Context_of_QString "-"]> ∅)) eq_refl)).
Defined.

(** * Further properties of the code *)

(** ** Induction over nested Contexts *)

Lemma Context_weight_unfold c :
  Context_weight c
  = S (map_fold (λ _ v acc, Context_weight v + acc) 0 (hash_ c)
       + Context_array_weight (array_ c)).
Proof.
  destruct c as [t h a s n]. reflexivity.
Qed.

Lemma Context_weight_hash c key v :
  hash_ c !! key = Some v → Context_weight v < Context_weight c.
Proof.
  intros Hk. rewrite (Context_weight_unfold c).
  rewrite (map_fold_delete_L _ _ key v (hash_ c)); [lia| |exact Hk].
  intros. lia.
Qed.

Lemma Context_weight_array c v :
  v ∈ array_ c → Context_weight v < Context_weight c.
Proof.
  intros Hin. rewrite (Context_weight_unfold c).
  assert (Context_weight v ≤ Context_array_weight (array_ c)); [|lia].
  induction Hin as [x l|x y l _ IH]; cbn [Context_array_weight]; lia.
Qed.

Lemma Context_ind' (P : Context → Prop) :
  (∀ c, map_Forall (λ _ v, P v) (hash_ c) → Forall P (array_ c) → P c) →
  ∀ c, P c.
Proof.
  intros Hstep c.
  remember (Context_weight c) as n eqn:Hn. revert c Hn.
  induction (lt_wf n) as [n _ IH]. intros c ->.
  apply Hstep.
  - intros key v Hk. apply (IH (Context_weight v)); [|reflexivity].
    by eapply Context_weight_hash.
  - apply Forall_forall. intros v Hin.
    apply (IH (Context_weight v)); [|reflexivity].
    by apply Context_weight_array.
Qed.

Lemma Context_eqb_unfold c other :
  Context_eqb c other
  = if negb (bool_decide (type_ c = type_ other)) then false
    else
      match type_ c with
      | Type_.Hash =>
          bool_decide (size (hash_ c) = size (hash_ other))
          && map_fold
               (λ key v acc,
                 acc && match hash_ other !! key with
                        | Some w => Context_eqb v w
                        | None => false
                        end)
               true (hash_ c)
      | Type_.Array => Context_array_eqb (array_ c) (array_ other)
      | Type_.String => String.eqb (string_ c) (string_ other)
      | Type_.NumberInt =>
          Z.eqb (number_union_i (number_ c)) (number_union_i (number_ other))
      | Type_.NumberFloat =>
          double_eqb (number_union_f (number_ c))
                     (number_union_f (number_ other))
      | Type_.BooleanTrue
      | Type_.BooleanFalse
      | Type_.Nil => true
      end.
Proof. destruct c as [t h a s n]. reflexivity. Qed.

Lemma map_fold_andb_true {A} (f : string → A → bool) (m : gmap string A) :
  map_fold (λ key v acc, acc && f key v) true m = true
  ↔ map_Forall (λ key v, f key v = true) m.
Proof.
  induction m as [|key v m Hnone Hfirst IH] using map_first_key_ind.
  - rewrite map_fold_empty. split; [intros _; apply map_Forall_empty|done].
  - rewrite map_fold_insert_first_key by done.
    rewrite andb_true_iff, IH, map_Forall_insert by done. tauto.
Qed.

Lemma Context_array_eqb_true l1 l2 :
  Context_array_eqb l1 l2 = true
  ↔ Forall2 (λ x y, Context_eqb x y = true) l1 l2.
Proof.
  revert l2. induction l1 as [|x l1 IH]; intros [|y l2]; cbn.
  - split; [constructor|done].
  - split; [done|inversion 1].
  - split; [done|inversion 1].
  - rewrite andb_true_iff, IH. split.
    + intros [? ?]. by constructor.
    + inversion 1; subst. done.
Qed.


(** ** [operator==] is a partial equivalence *)

Lemma double_eqb_true_iff (x y : double) :
  double_eqb x y = true
  ↔ (x = y ∧ double_is_number x = true)
    ∨ (∃ s s', x = S754_zero s ∧ y = S754_zero s').
Proof.
  split.
  - unfold double_eqb, SFeqb, SFcompare.
    destruct x as [s| [|] | |[|] m e], y as [s'|[|]| |[|] m' e']; cbn;
      try discriminate; try (intros _; by left); try (intros _; right; by eauto).
    all: destruct (Z.compare_spec e e') as [->| |]; try discriminate.
    all: fold (Pos.compare m m'); destruct (Pos.compare_spec m m') as [->| |];
      cbn; try discriminate; intros _; by left.
  - intros [[<- Hx]|(s & s' & -> & ->)]; [|reflexivity].
    unfold double_eqb, SFeqb, SFcompare.
    destruct x as [s| [|] | |[|] m e]; cbn; try reflexivity; try discriminate.
    all: rewrite Z.compare_refl; fold (Pos.compare m m);
      rewrite Pos.compare_refl; reflexivity.
Qed.

Lemma double_eqb_sym (x y : double) : double_eqb x y = double_eqb y x.
Proof.
  apply eq_iff_eq_true. rewrite !double_eqb_true_iff. split.
  - intros [[-> ?]|(s & s' & -> & ->)]; [by left|right; eauto].
  - intros [[-> ?]|(s & s' & -> & ->)]; [by left|right; eauto].
Qed.

Lemma double_eqb_refl (x : double) :
  double_is_number x = true → double_eqb x x = true.
Proof. intros Hx. apply double_eqb_true_iff. by left. Qed.

(** What [operator==] of two Hash members comes to. *)
Lemma Context_hash_eqb_true (h h' : gmap string Context) :
  bool_decide (size h = size h')
  && map_fold
       (λ key v acc,
         acc && match h' !! key with
                | Some w => Context_eqb v w
                | None => false
                end)
       true h = true
  ↔ size h = size h'
    ∧ map_Forall (λ key v, ∃ w, h' !! key = Some w ∧ Context_eqb v w = true) h.
Proof.
  rewrite andb_true_iff, bool_decide_eq_true, map_fold_andb_true.
  apply and_iff_compat_l. split; intros Hall key v Hk.
  - specialize (Hall key v Hk). cbn in Hall.
    destruct (h' !! key) as [w|]; [by exists w|discriminate].
  - destruct (Hall key v Hk) as (w & -> & Hw). exact Hw.
Qed.

Lemma Context_eqb_true_sym c :
  ∀ other, Context_eqb c other = true → Context_eqb other c = true.
Proof.
  induction c as [c IHhash IHarray] using Context_ind'. intros other.
  rewrite (Context_eqb_unfold c other), (Context_eqb_unfold other c).
  destruct (decide (type_ c = type_ other)) as [Heq|Hne].
  2:{ rewrite (bool_decide_eq_false_2 _ Hne). discriminate. }
  rewrite (bool_decide_eq_true_2 _ Heq), (bool_decide_eq_true_2 _ (eq_sym Heq)).
  cbn [negb]. rewrite <- Heq. destruct (type_ c).
  - rewrite !Context_hash_eqb_true. intros [Hsize Hall].
    split; [done|]. intros key w Hw.
    assert (Hdom : dom (hash_ c) = dom (hash_ other)).
    { apply set_subseteq_size_eq.
      - intros k [v Hv]%elem_of_dom. destruct (Hall k v Hv) as (w' & Hw' & _).
        apply elem_of_dom. by exists w'.
      - rewrite !size_dom. lia. }
    assert (Hin : key ∈ dom (hash_ c)).
    { rewrite Hdom. apply elem_of_dom. by exists w. }
    apply elem_of_dom in Hin as [v Hv]. exists v. split; [done|].
    destruct (Hall key v Hv) as (w' & Hw' & Hvw).
    assert (w' = w) as -> by congruence.
    by apply (IHhash key v Hv).
  - rewrite !Context_array_eqb_true. intros Hall.
    induction Hall as [|x y l1 l2 Hxy _ IH]; [constructor|].
    apply Forall_cons in IHarray as [IHx IHl]. constructor; [by apply IHx|].
    by apply IH.
  - rewrite String.eqb_sym. done.
  - rewrite Z.eqb_sym. done.
  - rewrite double_eqb_sym. done.
  - done.
  - done.
  - done.
Qed.

(** X1: [operator==] is symmetric: [a == b] and [b == a] give the same
    answer for all Contexts, nested Hashes and Arrays included. *)
Theorem Context_eqb_sym (c other : Context) :
  Context_eqb c other = Context_eqb other c.
Proof.
  apply eq_iff_eq_true. split; apply Context_eqb_true_sym.
Qed.

Lemma Context_nan_free_unfold c :
  Context_nan_free c
  = match type_ c with
    | Type_.Hash =>
        map_fold (λ _ v acc, acc && Context_nan_free v) true (hash_ c)
    | Type_.Array => forallb Context_nan_free (array_ c)
    | Type_.NumberFloat => double_is_number (number_union_f (number_ c))
    | _ => true
    end.
Proof. destruct c as [t h a s n]. reflexivity. Qed.

Lemma double_eqb_refl_iff (x : double) :
  double_eqb x x = true ↔ double_is_number x = true.
Proof.
  rewrite double_eqb_true_iff. split.
  - intros [[_ ?]|(s & _ & -> & _)]; [done|reflexivity].
  - intros ?. by left.
Qed.

Lemma Context_eqb_refl_nan_free (c : Context) :
  Context_nan_free c = true → Context_eqb c c = true.
Proof.
  induction c as [c IHhash IHarray] using Context_ind'.
  rewrite Context_nan_free_unfold, Context_eqb_unfold.
  rewrite (bool_decide_eq_true_2 _ (eq_refl (type_ c))). cbn [negb].
  destruct (type_ c).
  - rewrite map_fold_andb_true, Context_hash_eqb_true.
    intros Hfree. split; [done|]. intros key v Hk. exists v.
    split; [done|]. apply (IHhash key v Hk), (Hfree key v Hk).
  - rewrite forallb_forall, Context_array_eqb_true.
    induction IHarray as [|x l IHx _ IHl]; intros Hfree; constructor.
    + apply IHx, Hfree. by left.
    + apply IHl. intros y Hy. apply Hfree. by right.
  - intros _. apply String.eqb_refl.
  - intros _. apply Z.eqb_refl.
  - apply double_eqb_refl_iff.
  - done.
  - done.
  - done.
Qed.

(** X2: a Context that stores no NaN in a member the comparison reads, at
    any depth, is equal to itself; a NumberFloat is equal to itself exactly
    when it is not a NaN. *)
Theorem Context_eqb_refl (c : Context) :
  (Context_nan_free c = true → Context_eqb c c = true)
  ∧ (Context_type c = Type_.NumberFloat →
     (Context_eqb c c = true ↔ double_is_number (Context_toFloat c) = true)).
Proof.
  split; [apply Context_eqb_refl_nan_free|].
  unfold Context_type, Context_toFloat. intros Hfloat.
  rewrite Context_eqb_unfold, Hfloat.
  rewrite (bool_decide_eq_true_2 _ (eq_refl Type_.NumberFloat)). cbn [negb].
  apply double_eqb_refl_iff.
Qed.

Lemma Context_eqb_refl_witness :
  Context_nan_free hash_a_array = true
  ∧ Context_eqb hash_a_array hash_a_array = true.
Proof.
  split; [reflexivity|].
  exact (proj1 (Context_eqb_refl hash_a_array) eq_refl).
Defined.

Lemma double_eqb_trans (x y z : double) :
  double_eqb x y = true → double_eqb y z = true → double_eqb x z = true.
Proof.
  rewrite !double_eqb_true_iff.
  intros [[Hxy Hx]|(s & s' & Hx & Hy)] [[Hyz Hy']|(t & t' & Hy' & Hz)];
    subst.
  - left. by split.
  - right. eauto.
  - right. eauto.
  - right. eauto.
Qed.

Lemma Context_eqb_trans_all (c : Context) :
  ∀ b d, Context_eqb c b = true → Context_eqb b d = true →
         Context_eqb c d = true.
Proof.
  induction c as [c IHhash IHarray] using Context_ind'. intros b d.
  rewrite (Context_eqb_unfold c b), (Context_eqb_unfold b d),
    (Context_eqb_unfold c d).
  destruct (decide (type_ c = type_ b)) as [Hcb|Hne].
  2:{ rewrite (bool_decide_eq_false_2 _ Hne). discriminate. }
  destruct (decide (type_ b = type_ d)) as [Hbd|Hne].
  2:{ rewrite (bool_decide_eq_false_2 _ Hne), (bool_decide_eq_true_2 _ Hcb).
      intros _. discriminate. }
  rewrite (bool_decide_eq_true_2 _ Hcb), (bool_decide_eq_true_2 _ Hbd).
  rewrite (bool_decide_eq_true_2 (type_ c = type_ d)) by congruence.
  cbn [negb]. rewrite <- Hcb. destruct (type_ c).
  - rewrite !Context_hash_eqb_true. intros [Hs1 Hall1] [Hs2 Hall2].
    split; [congruence|]. intros key v Hv.
    destruct (Hall1 key v Hv) as (w & Hw & Hvw).
    destruct (Hall2 key w Hw) as (x & Hx & Hwx).
    exists x. split; [done|]. by apply (IHhash key v Hv w x).
  - rewrite !Context_array_eqb_true. revert IHarray.
    generalize (array_ c) (array_ b) (array_ d).
    intros lc lb ld IHarray Hcb'. revert ld.
    induction Hcb' as [|x y l1 l2 Hxy _ IH]; intros ld Hbd'.
    + inversion Hbd'. constructor.
    + inversion Hbd' as [|? z ? l3 Hyz Hl]; subst.
      apply Forall_cons in IHarray as [IHx IHl]. constructor.
      * by apply (IHx y z).
      * by apply IH.
  - rewrite !String.eqb_eq. congruence.
  - rewrite !Z.eqb_eq. congruence.
  - apply double_eqb_trans.
  - done.
  - done.
  - done.
Qed.

(** X3: [operator==] is transitive. *)
Theorem Context_eqb_trans (c b d : Context) :
  Context_eqb c b = true →
  Context_eqb b d = true →
  Context_eqb c d = true.
Proof. apply Context_eqb_trans_all. Qed.

Lemma Context_eqb_trans_witness :
  Context_eqb (Context_of_double (S754_zero false))
              (Context_of_double (S754_zero true)) = true
  ∧ Context_eqb (Context_of_double (S754_zero true))
                (Context_of_double (S754_zero false)) = true
  ∧ Context_eqb (Context_of_double (S754_zero false))
                (Context_of_double (S754_zero false)) = true.
Proof.
  split; [reflexivity|]. split; [reflexivity|].
  exact (Context_eqb_trans (Context_of_double (S754_zero false))
           (Context_of_double (S754_zero true))
           (Context_of_double (S754_zero false)) eq_refl eq_refl).
Defined.

(** ** Copy construction and assignment *)

Lemma Context_eqb_copy_l c other :
  Context_eqb (Context_copy c) other = Context_eqb c other.
Proof. destruct c as [[] h a s n]; reflexivity. Qed.

Lemma Context_eqb_copy_r c other :
  Context_eqb other (Context_copy c) = Context_eqb other c.
Proof.
  destruct c as [[] h a s n], other as [[] h' a' s' n']; reflexivity.
Qed.

Lemma Context_eqb_assign_l self ctx other :
  Context_eqb (Context_assign self ctx) other = Context_eqb ctx other.
Proof. destruct ctx as [[] h a s n]; reflexivity. Qed.

Lemma Context_eqb_assign_r self ctx other :
  Context_eqb other (Context_assign self ctx) = Context_eqb other ctx.
Proof.
  destruct ctx as [[] h a s n], other as [[] h' a' s' n']; reflexivity.
Qed.

(** X4: a copy-constructed Context cannot be told from the original by
    [operator==] (on either side), [type], [isTruthy], [size], [toFloat] or a
    key lookup, and copying a copy changes nothing more. *)
Theorem Context_copy_observations (c other : Context) :
  Context_type (Context_copy c) = Context_type c
  ∧ Context_eqb (Context_copy c) other = Context_eqb c other
  ∧ Context_eqb other (Context_copy c) = Context_eqb other c
  ∧ Context_isTruthy (Context_copy c) = Context_isTruthy c
  ∧ Context_size (Context_copy c) = Context_size c
  ∧ Context_toFloat (Context_copy c) = Context_toFloat c
  ∧ (∀ key, Context_evaluate (Context_copy c) (LookupKey key)
            = Context_evaluate c (LookupKey key))
  ∧ Context_copy (Context_copy c) = Context_copy c.
Proof.
  split; [by destruct c as [[] h a s n]|].
  split; [apply Context_eqb_copy_l|]. split; [apply Context_eqb_copy_r|].
  destruct c as [[] h a s n]; repeat split.
Qed.

(** X5: after [self = ctx], [self] cannot be told from [ctx] by
    [operator==] (on either side), [type], [isTruthy], [size], [toFloat] or a
    key lookup, whatever [self] held before. *)
Theorem Context_assign_observations (self ctx other : Context) :
  Context_type (Context_assign self ctx) = Context_type ctx
  ∧ Context_eqb (Context_assign self ctx) other = Context_eqb ctx other
  ∧ Context_eqb other (Context_assign self ctx) = Context_eqb other ctx
  ∧ Context_isTruthy (Context_assign self ctx) = Context_isTruthy ctx
  ∧ Context_size (Context_assign self ctx) = Context_size ctx
  ∧ Context_toFloat (Context_assign self ctx) = Context_toFloat ctx
  ∧ (∀ key, Context_evaluate (Context_assign self ctx) (LookupKey key)
            = Context_evaluate ctx (LookupKey key)).
Proof.
  split; [by destruct ctx as [[] h a s n]|].
  split; [apply Context_eqb_assign_l|]. split; [apply Context_eqb_assign_r|].
  destruct ctx as [[] h a s n]; repeat split.
Qed.

Section Assign.
Context `{QtNumberFormat}.

(** X6: assignment keeps the members the new tag does not select: after a
    Nil, a Hash or an Array is assigned to a String, [toString] still returns
    the old text, where a copy of the assigned value gives the empty text. *)
Theorem Context_assign_keeps_text (self ctx : Context) :
  Context_type self = Type_.String →
  Context_type ctx = Type_.Nil ∨ Context_type ctx = Type_.Hash
  ∨ Context_type ctx = Type_.Array →
  Context_toString (Context_assign self ctx) = Context_toString self
  ∧ Context_toString (Context_copy ctx) = EmptyString.
Proof.
  unfold Context_type, Context_toString, Context_assign, Context_copy.
  intros Hself Hctx. rewrite Hself.
  destruct Hctx as [ Hc | [ Hc | Hc ] ]; rewrite Hc; split; reflexivity.
Qed.
End Assign.

Lemma Context_assign_keeps_text_witness :
  @Context_toString plain_number_format
    (Context_assign (Context_of_QString "hello") Context_new) = "hello".
Proof.
  exact (proj1 (@Context_assign_keeps_text plain_number_format
           (Context_of_QString "hello") Context_new eq_refl
           (or_introl eq_refl))).
Defined.

(** ** [push_back], [at], [insert], [operator[]] *)

Lemma Context_push_back_unshared (c ctx : Context) :
  Context_isArray c = true →
  Context_type (Context_push_back c ctx) = Context_type c
  ∧ Context_size (Context_push_back c ctx) = (Context_size c + 1)%Z
  ∧ Context_at (Context_push_back c ctx) (Context_size c)
    = Some (Context_copy ctx)
  ∧ (∀ index, (index < Context_size c)%Z →
       Context_at (Context_push_back c ctx) index = Context_at c index)
  ∧ Context_at (Context_push_back c ctx) (Context_size c + 1) = None.
Proof.
  intros Harr. unfold Context_push_back. rewrite Harr.
  apply bool_decide_eq_true in Harr.
  unfold Context_type, Context_size, Context_at.
  cbn [type_ array_]. rewrite Harr, length_app. cbn [length].
  split; [done|]. split; [lia|]. split; [|split].
  - rewrite (proj2 (Z.leb_le _ _)) by lia.
    rewrite (proj2 (Z.ltb_lt _ _)) by lia. cbn [andb].
    rewrite Nat2Z.id, lookup_app_r by lia.
    by rewrite Nat.sub_diag.
  - intros index Hlt.
    destruct (Z.leb_spec 0 index) as [Hpos|Hneg]; [|reflexivity].
    rewrite (proj2 (Z.ltb_lt index _)) by lia.
    rewrite (proj2 (Z.ltb_lt index _)) by lia. cbn [andb].
    apply lookup_app_l. lia.
  - rewrite (proj2 (Z.ltb_ge _ _)) by lia. by rewrite andb_false_r.
Qed.

(** Detaching the list of an Array keeps its size and reads every index as
    the copy of what was there. *)
Lemma Context_at_detached t h a s n index :
  Context_at (mkContext t h (QList_detached a) s n) index
  = Context_copy <$> Context_at (mkContext t h a s n) index.
Proof.
  unfold Context_at, QList_detached. cbn [array_]. rewrite length_fmap.
  destruct ((0 <=? index)%Z && (index <? Z.of_nat (length a))%Z);
    [|reflexivity].
  apply list_lookup_fmap.
Qed.

(** X7: on an Array, [push_back] of another object appends: the size grows
    by one, [at] the old size returns the copy of the argument, the index
    after it is out of range, and the variant is unchanged. Every earlier
    index reads as before when the list data was not shared, and as the copy
    of what was there when it was shared and had to detach. *)
Theorem Context_push_back_Array_appends (c ctx : Context) :
  Context_isArray c = true →
  (Context_type (Context_push_back c ctx) = Context_type c
   ∧ Context_size (Context_push_back c ctx) = (Context_size c + 1)%Z
   ∧ Context_at (Context_push_back c ctx) (Context_size c)
     = Some (Context_copy ctx)
   ∧ (∀ index, (index < Context_size c)%Z →
        Context_at (Context_push_back c ctx) index = Context_at c index)
   ∧ Context_at (Context_push_back c ctx) (Context_size c + 1) = None)
  ∧ (Context_type (Context_push_back_shared c ctx) = Context_type c
     ∧ Context_size (Context_push_back_shared c ctx) = (Context_size c + 1)%Z
     ∧ Context_at (Context_push_back_shared c ctx) (Context_size c)
       = Some (Context_copy ctx)
     ∧ (∀ index, (index < Context_size c)%Z →
          Context_at (Context_push_back_shared c ctx) index
          = Context_copy <$> Context_at c index)
     ∧ Context_at (Context_push_back_shared c ctx) (Context_size c + 1)
       = None).
Proof.
  intros Harr. split; [by apply Context_push_back_unshared|].
  unfold Context_push_back_shared. rewrite Harr.
  destruct c as [t h a s n].
  assert (Harr' : Context_isArray (mkContext t h (QList_detached a) s n) = true)
    by exact Harr.
  assert (Hsize : Context_size (mkContext t h (QList_detached a) s n)
                  = Context_size (mkContext t h a s n)).
  { unfold Context_size, QList_detached. cbn [type_ array_ hash_ string_].
    by rewrite length_fmap. }
  destruct (Context_push_back_unshared _ ctx Harr')
    as (Htype & Hgrow & Hlast & Hearlier & Hnext).
  rewrite Hsize in Hgrow, Hlast, Hnext.
  split; [exact Htype|]. split; [exact Hgrow|]. split; [exact Hlast|].
  split; [|exact Hnext].
  intros index Hlt. rewrite Hearlier by (rewrite Hsize; exact Hlt).
  apply Context_at_detached.
Qed.

Lemma Context_push_back_Array_appends_witness :
  Context_isArray (Context_of_Array [Context_of_int 1]) = true
  ∧ Context_at (Context_push_back (Context_of_Array [Context_of_int 1])
                  (Context_of_int 7)) 1
    = Some (Context_of_int 7).
Proof.
  split; [reflexivity|].
  exact (proj1 (proj2 (proj2 (proj1
    (Context_push_back_Array_appends (Context_of_Array [Context_of_int 1])
       (Context_of_int 7) eq_refl))))).
Defined.

Lemma Context_index_insert_type c key value :
  Context_type (Context_index (Context_insert c key value) key)
  = Context_type value.
Proof.
  unfold Context_index, Context_insert, Context_type. cbn [hash_].
  rewrite lookup_insert_eq.
  destruct (hash_ c !! key); by destruct value as [[] h a s n].
Qed.

Lemma Context_insert_index_unshared (c : Context) (key : string)
    (value other : Context) :
  Context_type (Context_insert c key value) = Context_type c
  ∧ Context_type (Context_index (Context_insert c key value) key)
    = Context_type value
  ∧ Context_eqb (Context_index (Context_insert c key value) key) other
    = Context_eqb value other
  ∧ Context_eqb other (Context_index (Context_insert c key value) key)
    = Context_eqb other value
  ∧ (∀ key', key' ≠ key →
       Context_index (Context_insert c key value) key' = Context_index c key').
Proof.
  unfold Context_index, Context_insert, Context_type. cbn [hash_ type_].
  rewrite lookup_insert_eq. split; [done|].
  destruct (hash_ c !! key) as [stored|].
  - split; [by destruct value as [[] h a s n]|].
    split; [apply Context_eqb_assign_l|]. split; [apply Context_eqb_assign_r|].
    intros key' Hne. by rewrite lookup_insert_ne.
  - split; [by destruct value as [[] h a s n]|].
    split; [apply Context_eqb_copy_l|]. split; [apply Context_eqb_copy_r|].
    intros key' Hne. by rewrite lookup_insert_ne.
Qed.

(** Detaching the table reads every key as the copy of what was there. *)
Lemma Context_index_detached t h a s n key :
  Context_index (mkContext t (QHash_detached h) a s n) key
  = Context_copy (Context_index (mkContext t h a s n) key).
Proof.
  unfold Context_index, QHash_detached. cbn [hash_]. rewrite lookup_fmap.
  by destruct (h !! key).
Qed.

(** X8: what [insert] stores under a key is read back by [operator[]] as a
    Context of the inserted value's variant that [operator==] cannot tell
    from it, and the variant of the container is unchanged. The other keys
    read as before when the table data was not shared, and as the copy of
    what was there when it was shared and had to detach. *)
Theorem Context_insert_index (c : Context) (key : string)
    (value other : Context) :
  (Context_type (Context_insert c key value) = Context_type c
   ∧ Context_type (Context_index (Context_insert c key value) key)
     = Context_type value
   ∧ Context_eqb (Context_index (Context_insert c key value) key) other
     = Context_eqb value other
   ∧ Context_eqb other (Context_index (Context_insert c key value) key)
     = Context_eqb other value
   ∧ (∀ key', key' ≠ key →
        Context_index (Context_insert c key value) key'
        = Context_index c key'))
  ∧ (Context_type (Context_insert_shared c key value) = Context_type c
     ∧ Context_type (Context_index (Context_insert_shared c key value) key)
       = Context_type value
     ∧ Context_eqb (Context_index (Context_insert_shared c key value) key)
         other
       = Context_eqb value other
     ∧ Context_eqb other
         (Context_index (Context_insert_shared c key value) key)
       = Context_eqb other value
     ∧ (∀ key', key' ≠ key →
          Context_index (Context_insert_shared c key value) key'
          = Context_copy (Context_index c key'))).
Proof.
  split; [apply Context_insert_index_unshared|].
  unfold Context_insert_shared. destruct c as [t h a s n]. cbn [type_ hash_
    array_ string_ number_].
  destruct (Context_insert_index_unshared
              (mkContext t (QHash_detached h) a s n) key value other)
    as (Htype & Hread & Heq1 & Heq2 & Hothers).
  split; [exact Htype|]. split; [exact Hread|]. split; [exact Heq1|].
  split; [exact Heq2|].
  intros key' Hne. rewrite Hothers by done. apply Context_index_detached.
Qed.

Lemma Context_insert_evaluate_unshared (c : Context) (key : string)
    (value : Context) :
  Context_isHash c = true →
  Context_evaluate (Context_insert c key value) (LookupKey key)
  = Ok (Context_index (Context_insert c key value) key)
  ∧ (∀ key', key' ≠ key →
       Context_evaluate (Context_insert c key value) (LookupKey key')
       = Context_evaluate c (LookupKey key'))
  ∧ Context_size (Context_insert c key value)
    = (Context_size c + match hash_ c !! key with
                        | Some _ => 0
                        | None => 1
                        end)%Z.
Proof.
  intros Hhash.
  assert (Hins : Context_isHash (Context_insert c key value) = true)
    by exact Hhash.
  split; [|split].
  - cbn [Context_evaluate]. rewrite Hins. unfold Context_index.
    cbn [Context_insert hash_]. by rewrite lookup_insert_eq.
  - intros key' Hne. cbn [Context_evaluate]. rewrite Hins, Hhash.
    cbn [Context_insert hash_]. by rewrite lookup_insert_ne.
  - apply bool_decide_eq_true in Hhash. unfold Context_size.
    cbn [Context_insert type_ hash_]. rewrite Hhash.
    destruct (hash_ c !! key) as [stored|] eqn:Hk.
    + rewrite map_size_insert_Some by eauto. lia.
    + rewrite map_size_insert_None by done. lia.
Qed.

(** X9: on a Hash, [evaluate] of a key just inserted returns what
    [operator[]] reads there, and the size grows by one exactly when the key
    was new. The other keys evaluate as before when the table data was not
    shared, and to the copy of what they evaluated to when it was shared and
    had to detach. *)
Theorem Context_insert_evaluate_Hash (c : Context) (key : string)
    (value : Context) :
  Context_isHash c = true →
  (Context_evaluate (Context_insert c key value) (LookupKey key)
   = Ok (Context_index (Context_insert c key value) key)
   ∧ (∀ key', key' ≠ key →
        Context_evaluate (Context_insert c key value) (LookupKey key')
        = Context_evaluate c (LookupKey key'))
   ∧ Context_size (Context_insert c key value)
     = (Context_size c + match hash_ c !! key with
                         | Some _ => 0
                         | None => 1
                         end)%Z)
  ∧ (Context_evaluate (Context_insert_shared c key value) (LookupKey key)
     = Ok (Context_index (Context_insert_shared c key value) key)
     ∧ (∀ key', key' ≠ key →
          Context_evaluate (Context_insert_shared c key value)
            (LookupKey key')
          = (r ← Context_evaluate c (LookupKey key'); Ok (Context_copy r)))
     ∧ Context_size (Context_insert_shared c key value)
       = (Context_size c + match hash_ c !! key with
                           | Some _ => 0
                           | None => 1
                           end)%Z).
Proof.
  intros Hhash. split; [by apply Context_insert_evaluate_unshared|].
  unfold Context_insert_shared. destruct c as [t h a s n].
  cbn [type_ hash_ array_ string_ number_].
  assert (Hhash' : Context_isHash (mkContext t (QHash_detached h) a s n) = true)
    by exact Hhash.
  destruct (Context_insert_evaluate_unshared _ key value Hhash')
    as (Hread & Hothers & Hsize).
  split; [exact Hread|]. split.
  - intros key' Hne. rewrite Hothers by done.
    cbn [Context_evaluate]. rewrite Hhash', Hhash.
    unfold QHash_detached. cbn [hash_]. rewrite lookup_fmap.
    by destruct (h !! key').
  - rewrite Hsize. apply bool_decide_eq_true in Hhash. cbn [type_] in Hhash.
    unfold Context_size, QHash_detached. cbn [type_ hash_]. rewrite Hhash.
    rewrite map_size_fmap, lookup_fmap. by destruct (h !! key).
Qed.

Lemma Context_insert_evaluate_Hash_witness :
  Context_isHash hash_a_empty = true
  ∧ Context_evaluate (Context_insert hash_a_empty "b" (Context_of_int 1))
      (LookupKey "b")
    = Ok (Context_of_int 1)
  ∧ Context_size (Context_insert hash_a_empty "b" (Context_of_int 1)) = 2%Z.
Proof.
  split; [reflexivity|].
  destruct (Context_insert_evaluate_Hash hash_a_empty "b" (Context_of_int 1)
              eq_refl) as ((Hread & _ & Hsize) & _).
  split; [exact Hread | exact Hsize].
Defined.

(** X10: [insert] does not look at the variant. On a Context that is not a
    Hash the entry is stored and [operator[]] reads it back, but [evaluate]
    of any key still returns Nil, and [size] and [operator==] are as
    before. *)
Theorem Context_insert_not_Hash (c : Context) (key : string)
    (value other : Context) :
  Context_isHash c = false →
  (∀ key', Context_evaluate (Context_insert c key value) (LookupKey key')
           = Ok kNilContext)
  ∧ Context_size (Context_insert c key value) = Context_size c
  ∧ Context_eqb (Context_insert c key value) other = Context_eqb c other
  ∧ Context_eqb other (Context_insert c key value) = Context_eqb other c
  ∧ Context_type (Context_index (Context_insert c key value) key)
    = Context_type value.
Proof.
  intros Hhash. pose proof Hhash as Htype%bool_decide_eq_false.
  split; [|split; [|split; [|split]]].
  - intros key'. cbn [Context_evaluate]. unfold Context_isHash, Context_insert.
    cbn [type_]. fold (Context_isHash c). by rewrite Hhash.
  - destruct c as [[] h a s n]; try reflexivity. by destruct Htype.
  - destruct c as [[] h a s n]; try reflexivity. by destruct Htype.
  - destruct c as [[] h a s n], other as [[] h' a' s' n']; try reflexivity;
      by destruct Htype.
  - apply Context_index_insert_type.
Qed.

Lemma Context_insert_not_Hash_witness :
  Context_isHash (Context_of_QString "s") = false
  ∧ Context_evaluate
      (Context_insert (Context_of_QString "s") "k" (Context_of_int 1))
      (LookupKey "k")
    = Ok kNilContext
  ∧ Context_index
      (Context_insert (Context_of_QString "s") "k" (Context_of_int 1)) "k"
    = Context_of_int 1.
Proof.
  split; [reflexivity|].
  split; [|reflexivity].
  exact (proj1 (Context_insert_not_Hash (Context_of_QString "s") "k"
                  (Context_of_int 1) kNilContext eq_refl) "k").
Defined.

(** X11: [evaluate] of a key agrees with [operator[]] on a Hash and returns
    Nil on every other variant. *)
Theorem Context_evaluate_LookupKey_index (c : Context) (key : string) :
  Context_evaluate c (LookupKey key)
  = Ok (if Context_isHash c then Context_index c key else kNilContext).
Proof.
  cbn [Context_evaluate]. unfold Context_index.
  destruct (Context_isHash c); [|reflexivity].
  by destruct (hash_ c !! key).
Qed.

(** X12: [toBool] is true on the BooleanTrue variant only, so whatever
    [toBool] accepts is truthy (not conversely: numbers and strings are
    truthy); [Context(bool)] is read back by both. *)
Theorem Context_toBool_isTruthy (c : Context) (b : bool) :
  (Context_toBool c = true ↔ Context_type c = Type_.BooleanTrue)
  ∧ (Context_toBool c = true → Context_isTruthy c = true)
  ∧ Context_toBool (Context_of_bool b) = b
  ∧ Context_isTruthy (Context_of_bool b) = b.
Proof.
  unfold Context_toBool, Context_isTruthy, Context_type.
  split; [|split; [|by destruct b]].
  - destruct (type_ c); cbn; split; done.
  - by destruct (type_ c).
Qed.

Lemma Context_toBool_isTruthy_witness :
  Context_toBool (Context_of_bool true) = true
  ∧ Context_isTruthy (Context_of_bool true) = true.
Proof.
  split; [reflexivity|].
  exact (proj1 (proj2 (Context_toBool_isTruthy (Context_of_bool true) true))
           eq_refl).
Defined.

(** ** Paths *)

Lemma Context_walk_app c p q :
  p ≠ [] ∨ Context_isNil c = false →
  Context_walk c (p ++ q)
  = (r ← Context_walk c p; if Context_isNil r then Ok r else Context_walk r q).
Proof.
  revert c. induction p as [|step p IH]; intros c Hstart.
  - destruct Hstart as [?|Hc]; [done|].
    cbn [app Context_walk mbind result_bind bind]. by rewrite Hc.
  - cbn [app Context_walk].
    destruct (Context_evaluate c step) as [r|e]; [|reflexivity].
    destruct (Context_isNil r) eqn:Hr.
    + cbn [mbind result_bind bind]. by rewrite Hr.
    + apply IH. by right.
Qed.

(** X13: a path evaluates in stages: unless the path is empty and starts in
    a Nil Context, evaluating [p ++ q] is evaluating [p] and, when that did
    not end in Nil, evaluating [q] from where [p] arrived. *)
Theorem Context_evaluate_path_app (c : Context) (p q : list Expression) :
  p ≠ [] ∨ Context_isNil c = false →
  Context_evaluate c (Lookup (p ++ q))
  = (r ← Context_evaluate c (Lookup p);
     if Context_isNil r then Ok r else Context_evaluate r (Lookup q)).
Proof.
  intros Hstart. rewrite !Context_evaluate_Lookup, Context_walk_app by done.
  destruct (Context_walk c p) as [r|e]; [|reflexivity].
  cbn [mbind result_bind bind]. by rewrite Context_evaluate_Lookup.
Qed.

Lemma Context_evaluate_path_app_witness :
  Context_evaluate hash_a_array (Lookup ([LookupKey "a"] ++ [LookupKey "b"]))
  = (r ← Context_evaluate hash_a_array (Lookup [LookupKey "a"]);
     if Context_isNil r then Ok r
     else Context_evaluate r (Lookup [LookupKey "b"])).
Proof.
  apply Context_evaluate_path_app. left. discriminate.
Defined.

(** X14: a nested Lookup used as a step is evaluated in the Context the walk
    stands in, so (unless it is empty and the walk starts in Nil) it is the
    same as its steps written in line: [Lookup (Lookup p :: q)] evaluates as
    [Lookup (p ++ q)]. *)
Theorem Context_evaluate_nested_Lookup (c : Context) (p q : list Expression) :
  p ≠ [] ∨ Context_isNil c = false →
  Context_evaluate c (Lookup (Lookup p :: q))
  = Context_evaluate c (Lookup (p ++ q)).
Proof.
  intros Hstart.
  rewrite (Context_evaluate_Lookup c (p ++ q)), Context_walk_app by done.
  rewrite (Context_evaluate_Lookup c (Lookup p :: q)).
  cbn [Context_walk]. rewrite Context_evaluate_Lookup.
  by destruct (Context_walk c p).
Qed.

Lemma Context_evaluate_nested_Lookup_witness :
  Context_evaluate hash_a_empty
    (Lookup [Lookup [LookupKey "a"]; LookupKey "b"])
  = Context_evaluate hash_a_empty (Lookup ([LookupKey "a"] ++ [LookupKey "b"])).
Proof.
  apply Context_evaluate_nested_Lookup. left. discriminate.
Defined.

(** ** More on [BlockBody::parse] and [BlockBody::render] *)

Section BlockBodyFurther.
Context `{Collaborators}.

Lemma BlockBody_parse_loop_texts_app texts tail h (nodes_ : list Node) :
  BlockBody_parse_loop (map Text_component texts ++ tail) 0 h nodes_
  = BlockBody_parse_loop tail 0 h (nodes_ ++ map TextNode texts).
Proof.
  revert nodes_. induction texts as [|s texts IH]; intros nodes_.
  - cbn [map app]. by rewrite app_nil_r.
  - cbn [map app]. rewrite BlockBody_parse_loop_Text, IH, <- app_assoc.
    reflexivity.
Qed.

(** X15: [parse] stops at the first tag name it does not dispatch: the
    literal text before it has become the nodes, in order, the handler is
    given that name and the tokenizer standing right after the tag, and
    nothing after the tag is read by [parse]. *)
Theorem BlockBody_parse_stops_at_unknown_tag
    (texts : list string) (markup : string) (rest : Tokenizer)
    (h : UnknownTagHandler) (parser : Parser) (tagName : string)
    (parser' : Parser) :
  Parser_new markup = Ok parser →
  Parser_consume_Id parser = Ok (tagName, parser') →
  tagName ∉ parse_tag_names →
  BlockBody_parse (map Text_component texts ++ Tag_component markup :: rest) h
  = (tokenizer' ← h (Some tagName) rest;
     Ok (map TextNode texts, tokenizer')).
Proof.
  intros Hnew Hid Hnot. unfold BlockBody_parse.
  rewrite BlockBody_parse_loop_texts_app. cbn [app].
  eapply BlockBody_parse_loop_Tag_unknown; [done..|].
  intros kind Hkind. apply Hnot, TagKind_name_elem_of. by exists kind.
Qed.

(** X16: [parse] returns normally only through the handler: the tokenizer
    it leaves is the one a handler call returned; that call was given a
    suffix of the input (the empty one when the name was null); the nodes
    held at the start are a prefix of the final ones; and no more nodes were
    added than Components were passed. *)
Theorem BlockBody_parse_returns_through_handler
    (tokenizer : Tokenizer) (skip : nat) (h : UnknownTagHandler)
    (nodes_ nodes' : list Node) (tokenizer' : Tokenizer) :
  BlockBody_parse_loop tokenizer skip h nodes_ = Ok (nodes', tokenizer') →
  ∃ tagName rest,
    h tagName rest = Ok tokenizer'
    ∧ rest `suffix_of` tokenizer
    ∧ (tagName = None → rest = [])
    ∧ nodes_ `prefix_of` nodes'
    ∧ length nodes' + length rest ≤ length nodes_ + length tokenizer.
Proof.
  revert skip nodes_.
  induction tokenizer as [|comp rest IH]; intros skip nodes_ Hparse.
  - rewrite BlockBody_parse_loop_end in Hparse.
    destruct (h None []) as [t|] eqn:Hh; [|discriminate].
    injection Hparse as <- <-. exists None, []. done.
  - assert (Hstep : ∀ skip' nodes1,
              BlockBody_parse_loop rest skip' h nodes1 = Ok (nodes', tokenizer') →
              nodes_ `prefix_of` nodes1 →
              length nodes1 ≤ S (length nodes_) →
              ∃ tagName rest',
                h tagName rest' = Ok tokenizer'
                ∧ rest' `suffix_of` comp :: rest
                ∧ (tagName = None → rest' = [])
                ∧ nodes_ `prefix_of` nodes'
                ∧ length nodes' + length rest'
                  ≤ length nodes_ + length (comp :: rest)).
    { intros skip' nodes1 Hrec Hpre Hlen.
      destruct (IH _ _ Hrec) as (name & rest' & Hh & Hsuf & Hnone & Hpre' & Hl).
      exists name, rest'. split; [done|]. split; [by apply suffix_cons_r|].
      split; [done|]. split; [by etrans|]. cbn [length]. lia. }
    destruct skip as [|skip].
    2:{ cbn [BlockBody_parse_loop] in Hparse.
        eapply Hstep; [done|by exists []; rewrite app_nil_r|lia]. }
    cbn [BlockBody_parse_loop] in Hparse.
    destruct (Component_type comp).
    + eapply Hstep; [done|by eexists|].
      rewrite length_app. cbn. lia.
    + destruct (Variable_new (innerText comp)); [|discriminate].
      eapply Hstep; [done|by eexists|].
      rewrite length_app. cbn. lia.
    + destruct (Parser_new (innerText comp)) as [parser|]; [|discriminate].
      cbn [mbind result_bind bind] in Hparse.
      destruct (Parser_consume_Id parser) as [[tagName parser']|];
        [|discriminate].
      cbn [mbind result_bind bind] in Hparse.
      repeat
        match type of Hparse with
        | (if ?b then _ else _) = _ => destruct b
        | mbind _ (h (Some ?n) ?t) = _ =>
            destruct (h (Some n) t) as [t'|] eqn:Hh; [|discriminate Hparse];
            cbn [mbind result_bind bind] in Hparse;
            injection Hparse as <- <-;
            exists (Some n), t; split; [exact Hh|];
            split; [by apply suffix_cons_r|]; split; [done|];
            split; [done|]; cbn [length]; lia
        | mbind _ ?r = _ =>
            destruct r as [?|?]; cbn [mbind result_bind bind] in Hparse
        | (let '(_, _) := ?p in _) = _ => destruct p
        | Throw _ = Ok _ => discriminate Hparse
        end;
        (eapply Hstep; [done|by eexists|];
         rewrite length_app; cbn; lia).
Qed.

Lemma BlockBody_render_loop_app (n1 n2 : list Node) context str :
  BlockBody_render_loop (n1 ++ n2) context str
  = ('(s, c1) ← BlockBody_render_loop n1 context str;
     BlockBody_render_loop n2 c1 s).
Proof.
  revert context str. induction n1 as [|node n1 IH]; intros context str.
  - reflexivity.
  - cbn [app BlockBody_render_loop].
    destruct (Node_render node context) as [[s c1]|e]; [|reflexivity].
    cbn [mbind result_bind bind]. apply IH.
Qed.

Lemma BlockBody_render_loop_acc (nodes : list Node) context str :
  BlockBody_render_loop nodes context str
  = ('(s, c1) ← BlockBody_render_loop nodes context EmptyString;
     Ok (str +:+ s, c1)).
Proof.
  rewrite !BlockBody_render_loop_node_texts.
  by destruct (node_texts nodes context) as [[texts c1]|e].
Qed.

(** X17: rendering a sequence of nodes in two parts composes: the second
    part is rendered in the Context the first part left, the texts are
    joined, and an exception of either part is the exception of the whole. *)
Theorem BlockBody_render_app (n1 n2 : list Node) (context : Context) :
  BlockBody_render (n1 ++ n2) context
  = ('(s1, c1) ← BlockBody_render n1 context;
     '(s2, c2) ← BlockBody_render n2 c1;
     Ok (s1 +:+ s2, c2)).
Proof.
  unfold BlockBody_render. rewrite BlockBody_render_loop_app.
  destruct (BlockBody_render_loop n1 context EmptyString) as [[s1 c1]|e];
    [|reflexivity].
  cbn [mbind result_bind bind]. apply BlockBody_render_loop_acc.
Qed.
End BlockBodyFurther.

Lemma BlockBody_parse_stops_at_unknown_tag_witness :
  @BlockBody_parse plain_collaborators
    (map Text_component ["x"] ++ Tag_component "endif" :: [Text_component "y"])
    (λ _ tokenizer, Ok tokenizer)
  = Ok (map plain_TextNode ["x"], [Text_component "y"]).
Proof.
  assert (Hnot : "endif" ∉ parse_tag_names).
  { unfold parse_tag_names. rewrite !elem_of_cons, elem_of_nil.
    intros [Heq|[Heq|[Heq|[Heq|[Heq|[]]]]]]; discriminate Heq. }
  exact (@BlockBody_parse_stops_at_unknown_tag plain_collaborators ["x"]
           "endif" [Text_component "y"] (λ _ tokenizer, Ok tokenizer)
           "endif" "endif" EmptyString eq_refl eq_refl Hnot).
Defined.

Lemma BlockBody_parse_returns_through_handler_witness :
  ∃ tagName rest,
    BlockBody_defaultUnknownTagHandler tagName rest = Ok []
    ∧ rest `suffix_of` [Text_component "x"]
    ∧ (tagName = None → rest = [])
    ∧ [] `prefix_of` [plain_TextNode "x"]
    ∧ length [plain_TextNode "x"] + length rest
      ≤ length (@nil (@Node plain_collaborators))
        + length [Text_component "x"].
Proof.
  exact (@BlockBody_parse_returns_through_handler plain_collaborators
           [Text_component "x"] 0 BlockBody_defaultUnknownTagHandler []
           [plain_TextNode "x"] [] eq_refl).
Defined.
